(** * Prime values of Q(n) = n^47 - (n-1)^47: the analysis and verification scripts

    A shallow embedding of [scripts/verify_quadruplets.py] and of the
    list-processing functions of [scripts/analyze_primes.py], with the
    properties their documentation states.

    Python integers are unbounded and are modelled as [Z]; [%] and [//] with
    a positive right operand are [Z.modulo] and [Z.div] (both round towards
    minus infinity, as Python does).  A Python list of integers is a
    [list Z], a [set] of integers a [gset Z], a [Counter] a [gmap Z Z].
    Console output is not part of the model. *)

From stdpp Require Import gmap strings list sorting fin_maps.
From Stdlib Require Import ZArith Lia.
From Stdlib Require Znumtheory ZmodInv.

Local Open Scope Z_scope.

(** ** Outcomes of a Python computation *)

(** The exceptions a computation can end with.  The first three are the
    built-in ones the modelled operations raise (the three-argument [pow]
    and [max] raise [ValueError], list indexing raises [IndexError]); the
    last three are the error kinds of the design document, which no function
    of the scripts raises. *)
Inductive exn : Set :=
  | ValueError
  | IndexError
  | ZeroDivisionError
  | DomainError
  | EmptyInputError
  | InvariantViolation.

(** A call returns a value, raises, or is cut off because the iteration
    budget of one of its [while] loops ran out. *)
Inductive outcome (A : Type) : Type :=
  | Ret (a : A)
  | Raise (e : exn)
  | OutOfFuel.

Arguments Ret {A} a.
Arguments Raise {A} e.
Arguments OutOfFuel {A}.

#[global] Instance outcome_ret : MRet outcome := @Ret.

#[global] Instance outcome_bind : MBind outcome := fun A B f c =>
  match c with
  | Ret a => f a
  | Raise e => Raise e
  | OutOfFuel => OutOfFuel
  end.

(** [returns c] : the call ends normally. *)
Definition returns {A} (c : outcome A) : Prop := exists a, c = Ret a.

(** ** Built-in operations *)

(** Modular exponentiation by repeated squaring along the binary digits of
    the exponent, every intermediate result reduced modulo [m]. *)
Fixpoint pow_mod_pos (b : Z) (e : positive) (m : Z) : Z :=
  match e with
  | xH => b mod m
  | xO e' => let h := pow_mod_pos b e' m in (h * h) mod m
  | xI e' => let h := pow_mod_pos b e' m in (h * h * b) mod m
  end.

Definition pow_mod (b e m : Z) : Z :=
  match e with
  | Z0 => 1 mod m
  | Zpos e' => pow_mod_pos b e' m
  | Zneg _ => 0
  end.

(** [pow(b, e, m)].  A zero modulus raises; a negative exponent asks for a
    modular inverse of the base (raising when there is none); the result
    is [b ** e % m], with the sign of the modulus like [%]. *)
Definition py_pow3 (b e m : Z) : outcome Z :=
  if m =? 0 then Raise ValueError
  else if e <? 0 then
    match List.find (fun x => (b * x) mod m =? 1 mod m) (seqZ 0 (Z.abs m)) with
    | Some inv => Ret (pow_mod inv (- e) m)
    | None => Raise ValueError
    end
  else Ret (pow_mod b e m).

(** [a % b]. *)
Definition py_mod (a b : Z) : outcome Z :=
  if b =? 0 then Raise ZeroDivisionError else Ret (a mod b).

(** [l[i]] for a non-negative index. *)
Definition index (l : list Z) (i : nat) : outcome Z :=
  match l !! i with
  | Some x => Ret x
  | None => Raise IndexError
  end.

(** [max(l)] on a list. *)
Definition py_max (l : list Z) : outcome Z :=
  match l with
  | [] => Raise ValueError
  | x :: t => Ret (foldl Z.max x t)
  end.

(** ** verify_quadruplets.py *)

(** The loop [while d % 2 == 0: r += 1; d //= 2]. *)
Fixpoint decompose (fuel : nat) (r d : Z) : outcome (Z * Z) :=
  match fuel with
  | O => OutOfFuel
  | S fuel' =>
      if d mod 2 =? 0 then decompose fuel' (r + 1) (d / 2) else Ret (r, d)
  end.

Definition witnesses : list Z := [2; 3; 5; 7; 11; 13; 17; 19; 23; 29; 31; 37].

(** The inner [for _ in range(r - 1)] loop over [iters] remaining rounds:
    [true] when it leaves through [break], [false] when it runs to its
    [else] branch. *)
Fixpoint square_loop (iters : nat) (x n : Z) : outcome bool :=
  match iters with
  | O => Ret false
  | S iters' =>
      x' ← py_pow3 x 2 n;
      if x' =? n - 1 then Ret true else square_loop iters' x' n
  end.

(** The loop [for a in witnesses], followed by the final [return True]. *)
Fixpoint witness_loop (ws : list Z) (n r d : Z) : outcome bool :=
  match ws with
  | [] => Ret true
  | a :: ws' =>
      if a >=? n then witness_loop ws' n r d
      else
        x ← py_pow3 a d n;
        if (x =? 1) || (x =? n - 1) then witness_loop ws' n r d
        else
          broke ← square_loop (Z.to_nat (r - 1)) x n;
          if broke : bool then witness_loop ws' n r d else Ret false
  end.

(** Iteration budget of the decomposition loop for operand [n]. *)
Definition decompose_fuel (n : Z) : nat := S (Z.to_nat (Z.log2 n)).

Definition is_probable_prime_fuel (fuel : nat) (n k : Z) : outcome bool :=
  if n <? 2 then Ret false
  else if (n =? 2) || (n =? 3) then Ret true
  else if n mod 2 =? 0 then Ret false
  else
    '(r, d) ← decompose fuel 0 (n - 1);
    witness_loop witnesses n r d.

Definition is_probable_prime (n k : Z) : outcome bool :=
  is_probable_prime_fuel (decompose_fuel n) n k.

(** The default value of the parameter [k]. *)
Definition default_k : Z := 20.

Definition Q (n : Z) : Z := n ^ 47 - (n - 1) ^ 47.



(** ** analyze_primes.py *)

(** The inner loop
    [while i + 1 < len(n_values) and n_values[i+1] == n_values[i] + 1],
    which [find_ktuples] and [find_all_clusters] both contain; it returns
    the final [i] and [run_len]. *)
Fixpoint extend_run (fuel : nat) (n_values : list Z) (i : nat) (run_len : Z)
  : outcome (nat * Z) :=
  match fuel with
  | O => OutOfFuel
  | S fuel' =>
      if (i + 1 <? length n_values)%nat then
        next ← index n_values (i + 1);
        cur ← index n_values i;
        if next =? cur + 1
        then extend_run fuel' n_values (i + 1)%nat (run_len + 1)
        else Ret (i, run_len)
      else Ret (i, run_len)
  end.

(** Iteration budget of a scan over [n_values]. *)
Definition scan_fuel (n_values : list Z) : nat := S (length n_values).

Fixpoint find_ktuples_loop (fuel : nat) (n_values : list Z) (k : Z)
    (i : nat) (ktuples : list Z) : outcome (list Z) :=
  match fuel with
  | O => OutOfFuel
  | S fuel' =>
      if (i <? length n_values)%nat then
        run_start ← index n_values i;
        '(i1, run_len) ← extend_run (scan_fuel n_values) n_values i 1;
        let ktuples1 :=
          if run_len =? k then ktuples ++ [run_start]
          else if run_len >? k then ktuples
          else ktuples in
        find_ktuples_loop fuel' n_values k (i1 + 1)%nat ktuples1
      else Ret ktuples
  end.

Definition find_ktuples (n_values : list Z) (k : Z) : outcome (list Z) :=
  find_ktuples_loop (scan_fuel n_values) n_values k 0%nat [].

Fixpoint find_all_clusters_loop (fuel : nat) (n_values : list Z)
    (i : nat) (clusters : list (Z * Z)) : outcome (list (Z * Z)) :=
  match fuel with
  | O => OutOfFuel
  | S fuel' =>
      if (i <? length n_values)%nat then
        run_start ← index n_values i;
        '(i1, run_len) ← extend_run (scan_fuel n_values) n_values i 1;
        let clusters1 :=
          if run_len >=? 2 then clusters ++ [(run_start, run_len)]
          else clusters in
        find_all_clusters_loop fuel' n_values (i1 + 1)%nat clusters1
      else Ret clusters
  end.

Definition find_all_clusters (n_values : list Z) : outcome (list (Z * Z)) :=
  find_all_clusters_loop (scan_fuel n_values) n_values 0%nat [].

(** The loop [for i in range(1, len(n_values))] of [compute_gaps]. *)
Fixpoint compute_gaps_loop (range : list nat) (n_values : list Z)
    (gaps : list Z) : outcome (list Z) :=
  match range with
  | [] => Ret gaps
  | i :: range' =>
      hi ← index n_values i;
      lo ← index n_values (i - 1);
      compute_gaps_loop range' n_values (gaps ++ [hi - lo])
  end.

Definition compute_gaps (n_values : list Z) : outcome (list Z) :=
  compute_gaps_loop (seq 1 (length n_values - 1)) n_values [].

(** [main], gap analysis: [gaps = compute_gaps(n_values)] followed by
    [max(gaps)]. *)
Definition max_gap (n_values : list Z) : outcome Z :=
  gaps ← compute_gaps n_values;
  py_max gaps.

(** [[x for x in range(1, p) if pow(x, 47, p) == 1]], over the remaining
    part [xs] of the range. *)
Fixpoint roots_of_unity_from (xs : list Z) (p : Z) : outcome (list Z) :=
  match xs with
  | [] => Ret []
  | x :: xs' =>
      y ← py_pow3 x 47 p;
      rest ← roots_of_unity_from xs' p;
      Ret (if y =? 1 then x :: rest else rest)
  end.

Definition roots_of_unity (p : Z) : outcome (list Z) :=
  roots_of_unity_from (seqZ 1 (p - 1)) p.

(** The loop [for r in roots_of_unity] filling the set [forbidden]. *)
Fixpoint forbidden_loop (roots : list Z) (p : Z) (forbidden : gset Z)
  : outcome (gset Z) :=
  match roots with
  | [] => Ret forbidden
  | r :: roots' =>
      if negb (r =? 1) then
        inv ← py_pow3 (r - 1) (p - 2) p;
        n_forb ← py_mod (r * inv) p;
        forbidden_loop roots' p ({[n_forb]} ∪ forbidden)
      else forbidden_loop roots' p forbidden
  end.

(** The block "Find forbidden residues", the same in
    [analyze_residues_mod_283] and in [create_fig2_residue]. *)
Definition forbidden_residues (p : Z) : outcome (gset Z) :=
  roots ← roots_of_unity p;
  forbidden_loop roots p ∅.

(** [Counter(l)] and [hist.get(r, 0)]. *)
Definition Counter (l : list Z) : gmap Z Z :=
  foldl (fun hist x => <[x := default 0 (hist !! x) + 1]> hist) ∅ l.

Definition get0 (hist : gmap Z Z) (r : Z) : Z := default 0 (hist !! r).

(** [sum(...)] of a sequence of integers. *)
Definition py_sum (l : list Z) : Z := foldl Z.add 0 l.

Record residue_report : Type := {
  total_primes : Z;
  forbidden_residue_count : Z;
  primes_in_forbidden : Z;
  verification : string
}.

(** [[n % p for n in n_values]]. *)
Fixpoint residues_of (n_values : list Z) (p : Z) : outcome (list Z) :=
  match n_values with
  | [] => Ret []
  | n :: n_values' =>
      r ← py_mod n p;
      rest ← residues_of n_values' p;
      Ret (r :: rest)
  end.

Definition analyze_residues_mod_283 (n_values : list Z)
  : outcome residue_report :=
  let p := 283 in
  forbidden ← forbidden_residues p;
  residues ← residues_of n_values p;
  let hist := Counter residues in
  let forbidden_count := py_sum (get0 hist <$> elements forbidden) in
  Ret {| total_primes := Z.of_nat (length n_values);
         forbidden_residue_count := Z.of_nat (size forbidden);
         primes_in_forbidden := forbidden_count;
         verification := if forbidden_count =? 0 then "PASS" else "FAIL" |}.


(** [sorted(l)] on a list of integers. *)
Definition py_sorted (l : list Z) : list Z := merge_sort Z.le l.

(** [load_prime_n_values], from the lines the file yields.  The text type
    and its methods are parameters: [strip] is [line.strip()], [nonempty]
    the truth value of a string, [startswith_hash] is
    [line.startswith('#')], [isdigit] is [line.isdigit()] and [py_int] is
    [int(line)], which may raise. *)
Section Loader.

Context {str : Type}.
Context (strip : str -> str) (nonempty startswith_hash isdigit : str -> bool).
Context (py_int : str -> outcome Z).

(** The loop [for line in f]. *)
Fixpoint load_loop (lines : list str) (n_values : list Z)
  : outcome (list Z) :=
  match lines with
  | [] => Ret n_values
  | line :: lines' =>
      let line := strip line in
      if nonempty line && negb (startswith_hash line) && isdigit line then
        n ← py_int line;
        load_loop lines' (n_values ++ [n])
      else load_loop lines' n_values
  end.

Definition load_prime_n_values (lines : list str) : outcome (list Z) :=
  n_values ← load_loop lines [];
  Ret (py_sorted (elements (list_to_set n_values : gset Z))).

End Loader.

(** An instance of the text methods for lines of ASCII characters, with
    which the loader can be run: stripping of ASCII white space, and
    [isdigit] and [int] on strings of the digits 0 to 9 ([ascii_int] is
    only meant for such strings, the ones the loader passes to [int]). *)
Fixpoint lstrip (s : string) : string :=
  match s with
  | String c s' => if Ascii.is_space c then lstrip s' else s
  | EmptyString => EmptyString
  end.

Definition ascii_strip (s : string) : string :=
  String.rev (lstrip (String.rev (lstrip s))).

Fixpoint digits_value (acc : Z) (s : string) : option Z :=
  match s with
  | String c s' =>
      match Ascii.is_nat c with
      | Some d => digits_value (10 * acc + Z.of_nat d) s'
      | None => None
      end
  | EmptyString => Some acc
  end.

Definition ascii_nonempty (s : string) : bool := negb (String.eqb s "").

Definition ascii_isdigit (s : string) : bool :=
  ascii_nonempty s && bool_decide (is_Some (digits_value 0 s)).

Definition ascii_int (s : string) : outcome Z :=
  match digits_value 0 s with
  | Some n => if ascii_nonempty s then Ret n else Raise ValueError
  | None => Raise ValueError
  end.

Definition ascii_load : list string -> outcome (list Z) :=
  load_prime_n_values ascii_strip ascii_nonempty (String.prefix "#")
    ascii_isdigit ascii_int.

(** [compute_density_by_range].  Floating point is a parameter: [float] is
    the type of floats, [truediv a b] the result of [a / b] for a non-zero
    divisor, [times_1e6] the multiplication by [1e6], [round1] is
    [round(x, 1)] and [format_range low high] the string of the ['range']
    entry. *)
Section Density.

Context {float : Type}.
Context (truediv : Z -> Z -> outcome float).
Context (times_1e6 round1 : float -> float).
Context (format_range : Z -> Z -> string).






End Density.

(** ** generate_figures.py *)

(** The outer loop of [count_ktuples_up_to_N]; its inner loop is the one of
    the run finders. *)
Fixpoint count_ktuples_loop (fuel : nat) (n_list : list Z) (k : Z)
    (i : nat) (count : Z) : outcome Z :=
  match fuel with
  | O => OutOfFuel
  | S fuel' =>
      if (i <? length n_list)%nat then
        '(i1, run_len) ← extend_run (scan_fuel n_list) n_list i 1;
        let count1 := if run_len >=? k then count + 1 else count in
        count_ktuples_loop fuel' n_list k (i1 + 1)%nat count1
      else Ret count
  end.

(** [count_ktuples_up_to_N], the bound [N_max] being an integer (the calls
    pass floats with integer values, which compare with integers by
    value). *)
Definition count_ktuples_up_to_N (n_vals : list Z) (k N_max : Z) : outcome Z :=
  let n_list := py_sorted (filter (fun n => n <= N_max) n_vals) in
  count_ktuples_loop (scan_fuel n_list) n_list k 0%nat 0.

(** ** Reference notions for the run finders *)

(** The integers [start, start + 1, ..., start + length - 1] of a run. *)
Definition expand (run : Z * Z) : list Z := seqZ run.1 run.2.

(** [(s, len)] is a maximal block of consecutive integers of [l]: all of
    [s, ..., s + len - 1] occur in [l], and neither neighbour [s - 1] nor
    [s + len] does. *)
Definition maximal_run (l : list Z) (s len : Z) : Prop :=
  1 <= len /\
  (forall j, 0 <= j < len -> s + j ∈ l) /\
  (s - 1 ∉ l) /\
  (s + len ∉ l).

(** Number of elements of [rest] that continue a run whose last element so
    far is [x]. *)
Fixpoint run_tail (x : Z) (rest : list Z) : nat :=
  match rest with
  | y :: rest' => if y =? x + 1 then S (run_tail y rest') else O
  | [] => O
  end.

(** The decomposition of a list into its blocks of consecutive integers,
    singletons included, by recursion on the list: the head either extends
    the first block of the rest or starts a block of its own. *)
Fixpoint runs (l : list Z) : list (Z * Z) :=
  match l with
  | [] => []
  | x :: rest =>
      match runs rest with
      | (s, len) :: rs =>
          if s =? x + 1 then (x, len + 1) :: rs else (x, 1) :: (s, len) :: rs
      | [] => [(x, 1)]
      end
  end.

(** Two runs in sequence with at least one missing integer between them. *)
Definition apart (a b : Z * Z) : Prop := a.1 + a.2 < b.1.

(** The elements of [n_values] whose residue modulo 283 is in [forbidden]. *)
Definition in_forbidden (forbidden : gset Z) (n_values : list Z) : list Z :=
  filter (fun n => n mod 283 ∈ forbidden) n_values.

(** The residue [r * (r - 1)^(-1) mod 283] attached to a root of unity [r],
    the inverse taken as the power [283 - 2]. *)
Definition forbidden_of (r : Z) : Z := r * ((r - 1) ^ 281 mod 283) mod 283.

(** The roots of unity modulo 283 that the comprehension selects, those
    other than 1, and the set of their residues. *)
Definition roots_283 : list Z :=
  filter (fun x => x ^ 47 mod 283 = 1) (seqZ 1 282).

Definition nontrivial_283 : list Z := filter (fun r => r <> 1) roots_283.

Definition forbidden_283 : gset Z :=
  list_to_set (forbidden_of <$> nontrivial_283).

(** Primality by trial division up to the square root, the reference the
    test is compared with on small operands. *)
Definition trial_prime (n : Z) : bool :=
  (2 <=? n) && forallb (fun d => negb (n mod d =? 0)) (seqZ 2 (Z.sqrt n - 1)).

(** [is_probable_prime(n)] returned [True]. *)
Definition accepted (n : Z) : bool :=
  match is_probable_prime n default_k with
  | Ret true => true
  | _ => false
  end.

(** The [count] operands from [n] on that the test accepts all pass trial
    division. *)
Fixpoint agree_from (count : nat) (n : Z) : bool :=
  match count with
  | O => true
  | S count' =>
      if (if accepted n then trial_prime n else true)
      then agree_from count' (n + 1)
      else false
  end.

(** The differences of neighbouring elements, by recursion on the list. *)
Fixpoint gaps_of (l : list Z) : list Z :=
  match l with
  | x :: rest =>
      match rest with
      | y :: _ => (y - x) :: gaps_of rest
      | [] => []
      end
  | [] => []
  end.

(** The same roots and residues with every power taken by [pow_mod], the
    form in which they are evaluated. *)
Definition nontrivial_283_fast : list Z :=
  filter (fun r => r <> 1) (filter (fun x => pow_mod x 47 283 = 1) (seqZ 1 282)).

Definition forbidden_of_fast (r : Z) : Z := r * pow_mod (r - 1) 281 283 mod 283.

(** * Properties *)

(** ** The outcome monad *)

Lemma bind_Ret {A B} (f : A -> outcome B) (a : A) : Ret a ≫= f = f a.
Proof. reflexivity. Qed.

Lemma bind_returns {A B} (f : A -> outcome B) (c : outcome A) (b : B) :
  c ≫= f = Ret b <-> exists a, c = Ret a /\ f a = Ret b.
Proof.
  split.
  - destruct c as [a| |]; cbn; intros H; try discriminate. by exists a.
  - intros (a & -> & H). exact H.
Qed.

Lemma pow_mod_pos_spec b m e :
  m <> 0 -> pow_mod_pos b e m = b ^ Z.pos e mod m.
Proof.
  intros Hm. induction e as [e IH|e IH|]; cbn [pow_mod_pos].
  - rewrite IH, Pos2Z.inj_xI.
    replace (2 * Z.pos e + 1) with (Z.pos e + Z.pos e + 1) by lia.
    rewrite !Z.pow_add_r, Z.pow_1_r by lia.
    rewrite <- Z.mul_mod_idemp_l by done.
    rewrite <- Z.mul_mod by done.
    by rewrite Z.mul_mod_idemp_l by done.
  - rewrite IH, Pos2Z.inj_xO.
    replace (2 * Z.pos e) with (Z.pos e + Z.pos e) by lia.
    rewrite Z.pow_add_r by lia.
    by rewrite <- Z.mul_mod by done.
  - by rewrite Z.pow_1_r.
Qed.

(** The three-argument [pow] agrees with the exact power reduced modulo
    [m]. *)
Lemma pow_mod_spec b e m : m <> 0 -> 0 <= e -> pow_mod b e m = b ^ e mod m.
Proof.
  intros Hm He. destruct e as [|e|e]; [done | | lia].
  by apply pow_mod_pos_spec.
Qed.

Lemma Ret_inj {A} (a b : A) : Ret a = Ret b -> a = b.
Proof. intros H. by injection H. Qed.

Lemma py_pow3_nonneg b e m :
  m <> 0 -> 0 <= e -> py_pow3 b e m = Ret (b ^ e mod m).
Proof.
  intros Hm He. unfold py_pow3.
  destruct (Z.eqb_spec m 0); [done|].
  destruct (Z.ltb_spec e 0); [lia|].
  by rewrite pow_mod_spec.
Qed.

Lemma py_mod_nonzero a b : b <> 0 -> py_mod a b = Ret (a mod b).
Proof. intros Hb. unfold py_mod. by destruct (Z.eqb_spec b 0). Qed.

(** ** Miller-Rabin *)

Section MillerRabin.

(** The decomposition loop ends within [log2 d + 1] tests of its condition,
    with an odd positive [d]. *)
Lemma decompose_returns fuel : forall r d,
  0 < d -> Z.log2 d < Z.of_nat fuel ->
  exists r' d', decompose fuel r d = Ret (r', d') /\ 0 < d' /\ r <= r' /\
                d' mod 2 = 1 /\ d = 2 ^ (r' - r) * d'.
Proof.
  induction fuel as [|fuel IH]; intros r d Hd Hlog.
  - pose proof (Z.log2_nonneg d). lia.
  - cbn [decompose]. destruct (Z.eqb_spec (d mod 2) 0) as [Hev|Hodd].
    + assert (Hd2 : d = 2 * (d / 2)).
      { pose proof (Z.div_mod d 2). lia. }
      assert (Hpos : 0 < d / 2) by lia.
      destruct (IH (r + 1) (d / 2) Hpos) as (r' & d' & Heq & ? & ? & ? & Hprod).
      { assert (Z.log2 d = Z.succ (Z.log2 (d / 2))).
        { rewrite Hd2 at 1. apply Z.log2_double. lia. }
        lia. }
      exists r', d'. repeat split; try done; try lia.
      rewrite Hd2, Hprod.
      replace (r' - r) with (Z.succ (r' - (r + 1))) by lia.
      rewrite Z.pow_succ_r by lia. lia.
    + exists r, d. repeat split; try done; try lia.
      * pose proof (Z.mod_pos_bound d 2). lia.
      * rewrite Z.sub_diag. lia.
Qed.

(** Spare budget does not change the result of the decomposition. *)
Lemma decompose_more_fuel fuel : forall fuel' r d res,
  decompose fuel r d = Ret res -> (fuel <= fuel')%nat ->
  decompose fuel' r d = Ret res.
Proof.
  induction fuel as [|fuel IH]; intros fuel' r d res H Hle; [done|].
  destruct fuel' as [|fuel']; [lia|].
  cbn [decompose] in *. destruct (d mod 2 =? 0); [|done].
  apply IH; [done | lia].
Qed.

Lemma square_loop_returns iters : forall x n,
  n <> 0 -> returns (square_loop iters x n).
Proof.
  induction iters as [|iters IH]; intros x n Hn; cbn [square_loop].
  - by exists false.
  - rewrite py_pow3_nonneg by lia. rewrite bind_Ret.
    destruct (_ =? _); [by exists true | by apply IH].
Qed.

Lemma witness_loop_returns ws : forall n r d,
  n <> 0 -> 0 <= d -> returns (witness_loop ws n r d).
Proof.
  induction ws as [|a ws IH]; intros n r d Hn Hd; cbn [witness_loop].
  - by exists true.
  - destruct (a >=? n); [by apply IH|].
    rewrite py_pow3_nonneg by lia. rewrite bind_Ret.
    destruct (_ || _); [by apply IH|].
    destruct (square_loop_returns (Z.to_nat (r - 1)) (a ^ d mod n) n Hn)
      as [broke ->].
    rewrite bind_Ret. destruct broke; [by apply IH | by exists false].
Qed.

(** The test ends with a verdict on every integer. *)
Lemma is_probable_prime_returns n k : returns (is_probable_prime n k).
Proof.
  unfold is_probable_prime, is_probable_prime_fuel.
  destruct (Z.ltb_spec n 2); [by exists false|].
  destruct (_ || _); [by exists true|].
  destruct (_ =? _); [by exists false|].
  destruct (decompose_returns (decompose_fuel n) 0 (n - 1))
    as (r & d & -> & Hd & _); [lia | |].
  - unfold decompose_fuel.
    pose proof (Z.log2_nonneg n).
    pose proof (Z.log2_le_mono (n - 1) n).
    lia.
  - rewrite bind_Ret. apply witness_loop_returns; lia.
Qed.

(** Any budget on which the decomposition ends gives the verdict of
    [is_probable_prime]. *)
Lemma is_probable_prime_fuel_enough fuel n k b :
  is_probable_prime_fuel fuel n k = Ret b -> is_probable_prime n k = Ret b.
Proof.
  unfold is_probable_prime, is_probable_prime_fuel.
  destruct (n <? 2) eqn:Hn; [done|].
  destruct (_ || _); [done|].
  destruct (_ =? _); [done|].
  intros H. apply bind_returns in H as ([r d] & Hdec & Hw).
  destruct (decompose_returns (decompose_fuel n) 0 (n - 1))
    as (r' & d' & Heq & _).
  { apply Z.ltb_ge in Hn. lia. }
  { unfold decompose_fuel. apply Z.ltb_ge in Hn.
    pose proof (Z.log2_nonneg n). pose proof (Z.log2_le_mono (n - 1) n). lia. }
  rewrite Heq, bind_Ret.
  destruct (Nat.le_ge_cases fuel (decompose_fuel n)) as [Hle|Hle].
  - rewrite (decompose_more_fuel _ _ _ _ _ Hdec Hle) in Heq.
    by injection Heq as <- <-.
  - rewrite (decompose_more_fuel _ _ _ _ _ Heq Hle) in Hdec.
    by injection Hdec as <- <-.
Qed.

End MillerRabin.

(** ** Claims on the primality test and the quadruplet check *)


(** C2. The four spot checks of the test with its fixed witness list:
    561 is rejected, 104729 accepted, 1 rejected, 2 accepted. *)
Theorem is_probable_prime_spot_checks :
  is_probable_prime 561 default_k = Ret false /\
  is_probable_prime 104729 default_k = Ret true /\
  is_probable_prime 1 default_k = Ret false /\
  is_probable_prime 2 default_k = Ret true.
Proof. split; [|split; [|split]]; vm_compute; reflexivity. Qed.

(** C6, as the specification words it, fails: on the operand 1 the test
    returns the verdict [False]; it raises nothing, a [DomainError] in
    particular. *)
Lemma is_probable_prime_below_2_no_error :
  is_probable_prime 1 default_k = Ret false /\
  is_probable_prime 1 default_k <> Raise DomainError /\
  ~ (forall m k, m < 2 -> is_probable_prime m k = Raise DomainError).
Proof.
  assert (H : is_probable_prime 1 default_k = Ret false) by reflexivity.
  split; [exact H|]. split; [by rewrite H|].
  intros Hall. specialize (Hall 1 default_k). rewrite H in Hall.
  by specialize (Hall eq_refl).
Qed.

(** C6, amended. On every operand [m < 2], whatever [k], the test returns
    the ordinary verdict [False] (composite). *)
Theorem is_probable_prime_below_2 (m k : Z) :
  m < 2 -> is_probable_prime m k = Ret false.
Proof.
  intros Hm. unfold is_probable_prime, is_probable_prime_fuel.
  by destruct (Z.ltb_spec m 2); [|lia].
Qed.

Lemma is_probable_prime_below_2_witness :
  -5 < 2 /\ is_probable_prime (-5) default_k = Ret false.
Proof. split; [lia | apply (is_probable_prime_below_2 (-5) default_k); lia]. Defined.

(** C9. The verdict of the test is a function of [n] alone: it ends on
    every [n], the parameter [k] has no effect on it (neither on the
    budgeted version), and the witness list is the fixed one of 12
    entries. *)
Theorem is_probable_prime_ignores_k (n k1 k2 : Z) :
  is_probable_prime n k1 = is_probable_prime n k2 /\
  (forall fuel, is_probable_prime_fuel fuel n k1 = is_probable_prime_fuel fuel n k2) /\
  returns (is_probable_prime n k1) /\
  witnesses = [2; 3; 5; 7; 11; 13; 17; 19; 23; 29; 31; 37] /\
  length witnesses = 12%nat.
Proof.
  split; [reflexivity|]. split; [reflexivity|].
  split; [apply is_probable_prime_returns|]. split; reflexivity.
Qed.

(** ** The run finders *)

Section Runs.

Implicit Types (l rest : list Z) (rs : list (Z * Z)).

Lemma index_lookup l i x : l !! i = Some x -> index l i = Ret x.
Proof. unfold index. by intros ->. Qed.

Lemma run_tail_le x rest : (run_tail x rest <= length rest)%nat.
Proof.
  revert x. induction rest as [|y rest IH]; intros x; cbn; [lia|].
  destruct (y =? x + 1); [|lia]. specialize (IH y). lia.
Qed.

(** The inner loop started at index [i] with the element [x] stops after
    [run_tail x (drop (S i) l)] steps. *)
Lemma extend_run_spec l fuel : forall i x run_len,
  l !! i = Some x -> (length l - i < fuel)%nat ->
  extend_run fuel l i run_len =
    Ret ((i + run_tail x (drop (S i) l))%nat,
         run_len + Z.of_nat (run_tail x (drop (S i) l))).
Proof.
  induction fuel as [|fuel IH]; intros i x run_len Hi Hfuel; [lia|].
  cbn [extend_run]. rewrite Nat.add_1_r.
  destruct (Nat.ltb_spec (S i) (length l)) as [Hlt|Hge].
  - destruct (lookup_lt_is_Some_2 l (S i) Hlt) as [y Hy].
    rewrite (index_lookup _ _ _ Hy), (index_lookup _ _ _ Hi), !bind_Ret.
    rewrite (drop_S _ _ _ Hy). cbn [run_tail].
    destruct (y =? x + 1).
    + rewrite (IH (S i) y) by (done || lia). f_equal. f_equal; lia.
    + f_equal. f_equal; lia.
  - rewrite drop_ge by lia. cbn [run_tail]. f_equal. f_equal; lia.
Qed.

(** [runs] peels off the block that starts at the head. *)
Lemma runs_cons x rest :
  runs (x :: rest) =
    (x, 1 + Z.of_nat (run_tail x rest)) :: runs (drop (run_tail x rest) rest).
Proof.
  revert x. induction rest as [|y rest IH]; intros x; [done|].
  change (runs (x :: y :: rest)) with
    (match runs (y :: rest) with
     | (s, len) :: rs =>
         if s =? x + 1 then (x, len + 1) :: rs else (x, 1) :: (s, len) :: rs
     | [] => [(x, 1)]
     end).
  cbn [run_tail]. rewrite (IH y).
  destruct (y =? x + 1); cbn [drop].
  - do 2 f_equal. lia.
  - by rewrite (IH y).
Qed.

Lemma runs_drop l i x :
  l !! i = Some x ->
  runs (drop i l) =
    (x, 1 + Z.of_nat (run_tail x (drop (S i) l)))
      :: runs (drop (S i + run_tail x (drop (S i) l)) l).
Proof.
  intros Hi. rewrite (drop_S _ _ _ Hi), runs_cons, drop_drop. done.
Qed.

(** [find_all_clusters] keeps the blocks of [runs] of length at least 2. *)
Lemma find_all_clusters_loop_spec l fuel : forall i clusters,
  (i <= length l)%nat -> (length l - i < fuel)%nat ->
  find_all_clusters_loop fuel l i clusters =
    Ret (clusters ++ filter (fun r => 2 <= r.2) (runs (drop i l))).
Proof.
  induction fuel as [|fuel IH]; intros i clusters Hi Hfuel; [lia|].
  cbn [find_all_clusters_loop].
  destruct (Nat.ltb_spec i (length l)) as [Hlt|Hge].
  - destruct (lookup_lt_is_Some_2 l i Hlt) as [x Hx].
    rewrite (index_lookup _ _ _ Hx), bind_Ret.
    rewrite (extend_run_spec l _ i x 1 Hx) by (unfold scan_fuel; lia).
    rewrite bind_Ret. cbv beta iota zeta.
    rewrite (runs_drop _ _ _ Hx), filter_cons. cbn [snd].
    pose proof (run_tail_le x (drop (S i) l)) as Hle.
    rewrite length_drop in Hle.
    rewrite IH by lia.
    replace (i + run_tail x (drop (S i) l) + 1)%nat
      with (S i + run_tail x (drop (S i) l))%nat by lia.
    destruct (Z.geb_spec (1 + Z.of_nat (run_tail x (drop (S i) l))) 2);
      case_decide; try lia; [|done].
    by rewrite <- app_assoc.
  - rewrite drop_ge by lia. cbn. by rewrite app_nil_r.
Qed.

Lemma find_all_clusters_spec l :
  find_all_clusters l = Ret (filter (fun r => 2 <= r.2) (runs l)).
Proof.
  unfold find_all_clusters, scan_fuel.
  rewrite find_all_clusters_loop_spec by lia. done.
Qed.

(** [find_ktuples] keeps the starts of the blocks of [runs] of length [k]. *)
Lemma find_ktuples_loop_spec l k fuel : forall i ktuples,
  (i <= length l)%nat -> (length l - i < fuel)%nat ->
  find_ktuples_loop fuel l k i ktuples =
    Ret (ktuples ++ (filter (fun r => r.2 = k) (runs (drop i l))).*1).
Proof.
  induction fuel as [|fuel IH]; intros i ktuples Hi Hfuel; [lia|].
  cbn [find_ktuples_loop].
  destruct (Nat.ltb_spec i (length l)) as [Hlt|Hge].
  - destruct (lookup_lt_is_Some_2 l i Hlt) as [x Hx].
    rewrite (index_lookup _ _ _ Hx), bind_Ret.
    rewrite (extend_run_spec l _ i x 1 Hx) by (unfold scan_fuel; lia).
    rewrite bind_Ret. cbv beta iota zeta.
    rewrite (runs_drop _ _ _ Hx), filter_cons. cbn [snd].
    pose proof (run_tail_le x (drop (S i) l)) as Hle.
    rewrite length_drop in Hle.
    rewrite IH by lia.
    replace (i + run_tail x (drop (S i) l) + 1)%nat
      with (S i + run_tail x (drop (S i) l))%nat by lia.
    destruct (Z.eqb_spec (1 + Z.of_nat (run_tail x (drop (S i) l))) k);
      case_decide; try lia.
    + by rewrite fmap_cons, <- app_assoc.
    + by destruct (_ >? _).
  - rewrite drop_ge by lia. cbn. by rewrite app_nil_r.
Qed.

Lemma find_ktuples_spec l k :
  find_ktuples l k = Ret (filter (fun r => r.2 = k) (runs l)).*1.
Proof.
  unfold find_ktuples, scan_fuel.
  rewrite find_ktuples_loop_spec by lia. done.
Qed.

(** Every block has at least one element. *)
Lemma runs_lengths l : Forall (fun r => 1 <= r.2) (runs l).
Proof.
  induction l as [|x rest IH]; cbn [runs]; [constructor|].
  destruct (runs rest) as [|[s len] rs]; [by repeat constructor|].
  apply Forall_cons in IH as [Hlen Hrs]. cbn in Hlen.
  destruct (s =? x + 1); repeat constructor; cbn; (done || lia).
Qed.

(** The blocks, expanded and put end to end, are the list itself. *)
Lemma runs_expand l : runs l ≫= expand = l.
Proof.
  induction l as [|x rest IH]; cbn [runs]; [done|].
  pose proof (runs_lengths rest) as Hlen.
  destruct (runs rest) as [|[s len] rs].
  - rewrite <- IH. done.
  - apply Forall_cons in Hlen as [Hlen _]. cbn in Hlen.
    rewrite bind_cons in IH.
    destruct (Z.eqb_spec s (x + 1)) as [->|Hne]; rewrite bind_cons.
    + unfold expand at 1. cbn [fst snd].
      rewrite seqZ_cons by lia.
      replace (Z.pred (len + 1)) with len by lia.
      replace (Z.succ x) with (x + 1) by lia.
      cbn [app]. f_equal. exact IH.
    + rewrite bind_cons. by rewrite IH.
Qed.

Lemma elem_of_expansion rs x :
  x ∈ rs ≫= expand <-> exists r, r ∈ rs /\ r.1 <= x < r.1 + r.2.
Proof.
  rewrite list_elem_of_bind. unfold expand.
  split; intros (r & H1 & H2); exists r.
  - by apply elem_of_seqZ in H1.
  - by rewrite elem_of_seqZ.
Qed.

(** The first block starts at the head of the list. *)
Lemma runs_head l s len rs :
  runs l = (s, len) :: rs -> exists rest, l = s :: rest.
Proof.
  intros Hruns. pose proof (runs_expand l) as Hexp.
  pose proof (runs_lengths l) as Hlen. rewrite Hruns in Hexp, Hlen.
  apply Forall_cons in Hlen as [Hlen _]. cbn in Hlen.
  rewrite bind_cons in Hexp. unfold expand at 1 in Hexp. cbn [fst snd] in Hexp.
  rewrite seqZ_cons in Hexp by lia. cbn [app] in Hexp.
  by eexists.
Qed.

(** In a strictly increasing list successive blocks are separated by at
    least one missing integer. *)
Lemma runs_apart l : Sorted Z.lt l -> StronglySorted apart (runs l).
Proof.
  induction l as [|x rest IH]; intros Hsorted; cbn [runs]; [constructor|].
  apply Sorted_inv in Hsorted as [Hrest Hhd].
  specialize (IH Hrest).
  pose proof (runs_lengths rest) as Hlen.
  destruct (runs rest) as [|[s len] rs] eqn:Hruns; [by repeat constructor|].
  destruct (runs_head _ _ _ _ Hruns) as [rest' ->].
  apply HdRel_inv in Hhd.
  apply Forall_cons in Hlen as [Hlen _]. cbn in Hlen.
  apply StronglySorted_inv in IH as [Hrs Hs].
  destruct (Z.eqb_spec s (x + 1)) as [->|Hne].
  - constructor; [done|].
    eapply Forall_impl; [exact Hs|]. unfold apart. cbn. intros r. lia.
  - constructor; [by constructor|].
    constructor; [unfold apart; cbn; lia|].
    eapply Forall_impl; [exact Hs|]. unfold apart. cbn. intros r. lia.
Qed.

Lemma apart_pairwise rs r1 r2 :
  StronglySorted apart rs -> Forall (fun r => 1 <= r.2) rs ->
  r1 ∈ rs -> r2 ∈ rs -> r1 = r2 \/ apart r1 r2 \/ apart r2 r1.
Proof.
  induction 1 as [|r rs Hrs IH Hr]; intros Hlen H1 H2; [by inv H1|].
  apply Forall_cons in Hlen as [_ Hlen].
  rewrite Forall_forall in Hr.
  inv H1; inv H2; auto.
Qed.

(** In a strictly increasing list, the blocks of [runs] are the maximal
    runs of consecutive integers. *)
Lemma runs_maximal l s len :
  Sorted Z.lt l -> (s, len) ∈ runs l <-> maximal_run l s len.
Proof.
  intros Hsorted.
  pose proof (runs_apart l Hsorted) as Hapart.
  pose proof (runs_lengths l) as Hlen.
  assert (Hin : forall x, x ∈ l <->
            exists r, r ∈ runs l /\ r.1 <= x < r.1 + r.2).
  { intros x. rewrite <- elem_of_expansion. by rewrite runs_expand. }
  assert (Hfwd : forall s len, (s, len) ∈ runs l -> maximal_run l s len).
  { clear s len. intros s len Hr.
    assert (1 <= len) as Hpos.
    { rewrite Forall_forall in Hlen. apply (Hlen _ Hr). }
    split; [done|]. split; [|split].
    - intros j Hj. apply Hin. exists (s, len). cbn. split; [done | lia].
    - intros ([s' len'] & Hr' & Hbound)%Hin. cbn in Hbound.
      destruct (apart_pairwise _ _ _ Hapart Hlen Hr Hr') as [Heq|[Hap|Hap]];
        unfold apart in *; cbn in *; [injection Heq as <- <-|..]; lia.
    - intros ([s' len'] & Hr' & Hbound)%Hin. cbn in Hbound.
      destruct (apart_pairwise _ _ _ Hapart Hlen Hr Hr') as [Heq|[Hap|Hap]];
        unfold apart in *; cbn in *; [injection Heq as <- <-|..]; lia. }
  split; [apply Hfwd|].
  intros (Hpos & Hall & Hbefore & Hafter).
  assert (s ∈ l) as ([s' len'] & Hr' & Hbound)%Hin.
  { replace s with (s + 0) by lia. apply Hall. lia. }
  cbn in Hbound.
  destruct (Hfwd _ _ Hr') as (Hpos' & Hall' & Hbefore' & Hafter').
  assert (s' = s) as ->.
  { destruct (Z.eq_dec s' s) as [|Hne]; [done|]. exfalso. apply Hbefore.
    replace (s - 1) with (s' + (s - 1 - s')) by lia. apply Hall'. lia. }
  assert (len' = len) as ->; [|done].
  destruct (Z.lt_total len' len) as [Hlt|[Heq|Hgt]]; [|done|].
  - exfalso. apply Hafter'. apply Hall. lia.
  - exfalso. apply Hafter. apply Hall'. lia.
Qed.

(** A maximal run is determined by its start. *)
Lemma maximal_run_unique l s len1 len2 :
  maximal_run l s len1 -> maximal_run l s len2 -> len1 = len2.
Proof.
  intros (H1 & Hall1 & _ & Hafter1) (H2 & Hall2 & _ & Hafter2).
  destruct (Z.lt_total len1 len2) as [Hlt|[Heq|Hgt]]; [|done|].
  - exfalso. apply Hafter1. apply Hall2. lia.
  - exfalso. apply Hafter2. apply Hall1. lia.
Qed.

Lemma Sorted_lt_NoDup l : Sorted Z.lt l -> NoDup l.
Proof.
  intros Hs. apply (Sorted_StronglySorted _) in Hs.
  induction Hs as [|x l Hl IH Hx]; constructor; [|done].
  rewrite Forall_forall in Hx. intros Hin. specialize (Hx _ Hin). lia.
Qed.

Lemma Sorted_lt_le l : Sorted Z.lt l -> Sorted Z.le l.
Proof.
  induction 1 as [|x l Hl IH Hx]; constructor; [done|].
  destruct Hx; constructor. lia.
Qed.

Lemma StronglySorted_sublist {A} (R : relation A) (l1 l2 : list A) :
  StronglySorted R l2 -> l1 `sublist_of` l2 -> StronglySorted R l1.
Proof.
  intros Hs. revert l1.
  induction Hs as [|x l2 Hl2 IH Hx]; intros l1 Hsub.
  - apply sublist_nil_r in Hsub as ->. constructor.
  - inv Hsub; [|by apply IH].
    constructor; [by apply IH|].
    rewrite Forall_forall in Hx |- *. eauto using elem_of_sublist.
Qed.

Lemma sublist_bind {A B} (f : A -> list B) (l1 l2 : list A) :
  l1 `sublist_of` l2 -> l1 ≫= f `sublist_of` l2 ≫= f.
Proof.
  induction 1 as [|x l1 l2 _ IH|x l1 l2 _ IH]; [done|..]; rewrite ?bind_cons.
  - by apply sublist_app.
  - by apply sublist_inserts_l.
Qed.

(** Blocks that are apart are listed by ascending start. *)
Lemma apart_starts_ascending rs :
  StronglySorted apart rs -> Forall (fun r => 1 <= r.2) rs ->
  Sorted Z.lt rs.*1.
Proof.
  intros Hs Hlen. apply StronglySorted_Sorted.
  induction Hs as [|r rs Hrs IH Hr]; csimpl; constructor.
  - apply IH. by apply Forall_cons in Hlen as [_ ?].
  - apply Forall_cons in Hlen as [Hlen _].
    rewrite Forall_fmap. eapply Forall_impl; [exact Hr|].
    unfold apart. cbn. intros r'. lia.
Qed.

End Runs.

(** ** Claims on the run finders *)

(** C3. On a sorted sequence without duplicates [find_all_clusters] returns
    exactly the maximal runs of consecutive integers of length at least 2,
    as (start, length) pairs: a pair is reported if and only if it is such a
    run (so no singleton is reported), reported runs are separated by a
    missing integer and listed by ascending start, which is the order of the
    input.  On [5,6,7,10,11,13] the result is [(5,3),(10,2)]. *)
Theorem find_all_clusters_maximal_runs :
  (forall l : list Z, Sorted Z.lt l ->
     exists out, find_all_clusters l = Ret out /\
       (forall s len, (s, len) ∈ out <-> 2 <= len /\ maximal_run l s len) /\
       StronglySorted apart out /\
       Sorted Z.lt out.*1) /\
  find_all_clusters [5; 6; 7; 10; 11; 13] = Ret [(5, 3); (10, 2)].
Proof.
  split; [|reflexivity].
  intros l Hsorted. eexists. split; [apply find_all_clusters_spec|].
  assert (Hsub : filter (fun r : Z * Z => 2 <= r.2) (runs l)
                   `sublist_of` runs l) by apply sublist_filter.
  assert (Hap : StronglySorted apart
                  (filter (fun r : Z * Z => 2 <= r.2) (runs l))).
  { eapply StronglySorted_sublist; [by apply runs_apart | done]. }
  split; [|split; [done|]].
  - intros s len. rewrite list_elem_of_filter. cbn.
    by rewrite runs_maximal.
  - apply apart_starts_ascending; [done|].
    apply Forall_forall. intros r [Hr _]%list_elem_of_filter. lia.
Qed.

Lemma find_all_clusters_maximal_runs_witness :
  Sorted Z.lt [5; 6; 7; 10; 11; 13] /\
  exists out, find_all_clusters [5; 6; 7; 10; 11; 13] = Ret out /\
    (forall s len,
       (s, len) ∈ out <->
       2 <= len /\ maximal_run [5; 6; 7; 10; 11; 13] s len) /\
    StronglySorted apart out /\
    Sorted Z.lt out.*1.
Proof.
  assert (Hs : Sorted Z.lt [5; 6; 7; 10; 11; 13])
    by (repeat constructor; lia).
  split; [exact Hs|].
  exact (proj1 find_all_clusters_maximal_runs [5; 6; 7; 10; 11; 13] Hs).
Defined.

(** C4. On a sorted sequence without duplicates, the integers of the runs
    returned by [find_all_clusters] together with the elements of the
    sequence that no run covers are the sequence again: the same elements,
    each once, and the sequence itself once put in ascending order. *)
Theorem find_all_clusters_round_trip (l : list Z) :
  Sorted Z.lt l ->
  exists out, find_all_clusters l = Ret out /\
    let covered := out ≫= expand in
    let singles := filter (fun x => x ∉ covered) l in
    covered ++ singles ≡ₚ l /\
    NoDup (covered ++ singles) /\
    merge_sort Z.le (covered ++ singles) = l.
Proof.
  intros Hsorted. eexists. split; [apply find_all_clusters_spec|].
  cbv zeta.
  set (covered := filter (fun r : Z * Z => 2 <= r.2) (runs l) ≫= expand).
  pose proof (Sorted_lt_NoDup l Hsorted) as Hnd.
  assert (Hsub : covered `sublist_of` runs l ≫= expand)
    by apply sublist_bind, sublist_filter.
  rewrite runs_expand in Hsub.
  assert (Hnd' : NoDup (covered ++ filter (fun x => x ∉ covered) l)).
  { apply NoDup_app. split; [by eapply sublist_NoDup|]. split.
    - intros x Hx [Hnx _]%list_elem_of_filter. done.
    - by apply NoDup_filter. }
  assert (Hperm : covered ++ filter (fun x => x ∉ covered) l ≡ₚ l).
  { apply NoDup_Permutation; [done..|].
    intros x. rewrite elem_of_app, list_elem_of_filter. split.
    - intros [Hx|[_ Hx]]; [by eapply elem_of_sublist | done].
    - intros Hx. destruct (decide (x ∈ covered)); auto. }
  split; [done|]. split; [done|].
  apply (Sorted_unique Z.le).
  - apply (Sorted_merge_sort _).
  - by apply Sorted_lt_le.
  - by rewrite merge_sort_Permutation.
Qed.

Lemma find_all_clusters_round_trip_witness :
  Sorted Z.lt [5; 6; 7; 10; 11; 13] /\
  exists out, find_all_clusters [5; 6; 7; 10; 11; 13] = Ret out /\
    let covered := out ≫= expand in
    let singles := filter (fun x => x ∉ covered) [5; 6; 7; 10; 11; 13] in
    covered ++ singles ≡ₚ [5; 6; 7; 10; 11; 13] /\
    NoDup (covered ++ singles) /\
    merge_sort Z.le (covered ++ singles) = [5; 6; 7; 10; 11; 13].
Proof.
  assert (Hs : Sorted Z.lt [5; 6; 7; 10; 11; 13])
    by (repeat constructor; lia).
  split; [exact Hs|].
  exact (find_all_clusters_round_trip [5; 6; 7; 10; 11; 13] Hs).
Defined.

(** C5. On a sorted sequence without duplicates and for [k >= 1],
    [find_ktuples] returns, in ascending order, the starts of the maximal
    runs whose length is exactly [k]; the start of a maximal run longer than
    [k] is not returned. *)
Theorem find_ktuples_exact_length (l : list Z) (k : Z) :
  Sorted Z.lt l -> 1 <= k ->
  exists out, find_ktuples l k = Ret out /\
    (forall s, s ∈ out <-> maximal_run l s k) /\
    Sorted Z.lt out /\
    (forall s len, maximal_run l s len -> k < len -> s ∉ out).
Proof.
  intros Hsorted Hk. eexists. split; [apply find_ktuples_spec|].
  assert (Hiff : forall s,
            s ∈ (filter (fun r : Z * Z => r.2 = k) (runs l)).*1 <->
            maximal_run l s k).
  { intros s. rewrite <- runs_maximal by done.
    rewrite list_elem_of_fmap. split.
    - intros ([s' len] & -> & [Hlen Hr]%list_elem_of_filter).
      cbn in *. by subst.
    - intros Hr. exists (s, k). split; [done|].
      by apply list_elem_of_filter. }
  split; [done|]. split.
  - apply apart_starts_ascending.
    + eapply StronglySorted_sublist; [by apply runs_apart|].
      apply sublist_filter.
    + apply Forall_forall. intros r [Hr _]%list_elem_of_filter. lia.
  - intros s len Hmax Hlt Hin%Hiff.
    pose proof (maximal_run_unique _ _ _ _ Hmax Hin). lia.
Qed.

Lemma find_ktuples_exact_length_witness :
  Sorted Z.lt [1; 2; 3; 4; 5; 8; 9; 10; 11; 20] /\ 1 <= 4 /\
  exists out, find_ktuples [1; 2; 3; 4; 5; 8; 9; 10; 11; 20] 4 = Ret out /\
    (forall s, s ∈ out <-> maximal_run [1; 2; 3; 4; 5; 8; 9; 10; 11; 20] s 4) /\
    Sorted Z.lt out /\
    (forall s len,
       maximal_run [1; 2; 3; 4; 5; 8; 9; 10; 11; 20] s len -> 4 < len ->
       s ∉ out).
Proof.
  assert (Hs : Sorted Z.lt [1; 2; 3; 4; 5; 8; 9; 10; 11; 20])
    by (repeat constructor; lia).
  assert (Hk : 1 <= 4) by lia.
  split; [exact Hs|]. split; [exact Hk|].
  exact (find_ktuples_exact_length [1; 2; 3; 4; 5; 8; 9; 10; 11; 20] 4 Hs Hk).
Defined.

(** ** Gaps *)

Section Gaps.

Implicit Types (l gaps : list Z) (range : list nat).

(** The loop of [compute_gaps] over indices within the list appends one
    difference per index and never raises. *)
Lemma compute_gaps_loop_spec l range : forall gaps,
  Forall (fun i => 1 <= i < length l)%nat range ->
  exists out,
    compute_gaps_loop range l gaps = Ret (gaps ++ out) /\
    length out = length range /\
    forall j i hi lo,
      range !! j = Some i -> l !! i = Some hi -> l !! (i - 1)%nat = Some lo ->
      out !! j = Some (hi - lo).
Proof.
  induction range as [|i range IH]; intros gaps Hrange.
  - exists []. rewrite app_nil_r. by split_and!.
  - apply Forall_cons in Hrange as [Hi Hrange].
    destruct (lookup_lt_is_Some_2 l i) as [hi Hhi]; [lia|].
    destruct (lookup_lt_is_Some_2 l (i - 1)) as [lo Hlo]; [lia|].
    destruct (IH (gaps ++ [hi - lo]) Hrange) as (out & Hloop & Hlen & Hout).
    exists ((hi - lo) :: out). cbn [compute_gaps_loop].
    rewrite (index_lookup _ _ _ Hhi), (index_lookup _ _ _ Hlo), !bind_Ret.
    rewrite Hloop, <- app_assoc. split; [done|]. split; [cbn; lia|].
    intros [|j] i' hi' lo' Hj Hhi' Hlo'; cbn in *.
    + by simplify_eq.
    + eauto.
Qed.

(** [compute_gaps] returns on every list. *)
Lemma compute_gaps_total l :
  exists gaps,
    compute_gaps l = Ret gaps /\
    length gaps = (length l - 1)%nat /\
    forall i hi lo,
      (1 <= i)%nat -> l !! i = Some hi -> l !! (i - 1)%nat = Some lo ->
      gaps !! (i - 1)%nat = Some (hi - lo).
Proof.
  destruct (compute_gaps_loop_spec l (seq 1 (length l - 1)) [])
    as (out & Hloop & Hlen & Hout).
  { apply Forall_forall. intros i Hi%elem_of_seq. lia. }
  exists out. split; [done|]. rewrite length_seq in Hlen. split; [done|].
  intros i hi lo Hi Hhi Hlo. apply (Hout _ i); [|done..].
  apply lookup_seq. apply lookup_lt_Some in Hhi. lia.
Qed.

End Gaps.

(** C8, as the specification words it, fails: for a sequence of fewer than
    two elements [compute_gaps] returns the empty gap list without any
    error, and the following [max(gaps)] of [main] raises the built-in
    [ValueError], not an [EmptyInputError]. *)
Lemma compute_gaps_short_returns_empty :
  compute_gaps [7] = Ret [] /\
  compute_gaps [] = Ret [] /\
  max_gap [7] = Raise ValueError /\
  max_gap [7] <> Raise EmptyInputError /\
  ~ (forall l : list Z, (length l < 2)%nat -> max_gap l = Raise EmptyInputError) /\
  ~ (forall l : list Z, (length l < 2)%nat -> exists e, compute_gaps l = Raise e).
Proof.
  split_and!; try reflexivity; try discriminate.
  - intros H. specialize (H [7]). cbn in H. by specialize (H ltac:(lia)).
  - intros H. destruct (H [7]) as [e He]; [cbn; lia | discriminate].
Qed.

(** C8, amended. [compute_gaps] never fails.  For a sequence with at least
    one element the gap list has [len(seq) - 1] elements, and for every
    index [1 <= i < len(seq)] its element at position [i - 1] is
    [seq[i] - seq[i-1]].  For a sequence of fewer than two elements the gap
    list is empty, and taking [max] of it raises the built-in
    [ValueError]. *)
Theorem compute_gaps_returns (n_values : list Z) :
  exists gaps,
    compute_gaps n_values = Ret gaps /\
    ((1 <= length n_values)%nat ->
       Z.of_nat (length gaps) = Z.of_nat (length n_values) - 1) /\
    (forall i hi lo,
       (1 <= i)%nat ->
       n_values !! i = Some hi -> n_values !! (i - 1)%nat = Some lo ->
       gaps !! (i - 1)%nat = Some (hi - lo)) /\
    ((length n_values < 2)%nat ->
       gaps = [] /\ max_gap n_values = Raise ValueError).
Proof.
  destruct (compute_gaps_total n_values) as (gaps & Heq & Hlen & Hel).
  exists gaps. split; [done|]. split; [lia|]. split; [done|].
  intros Hshort. assert (gaps = []) as ->.
  { apply length_zero_iff_nil. lia. }
  split; [done|]. unfold max_gap. by rewrite Heq.
Qed.

Lemma compute_gaps_returns_witness :
  (exists gaps,
     compute_gaps [7] = Ret gaps /\
     Z.of_nat (length gaps) = Z.of_nat (length [7]) - 1 /\
     gaps = [] /\ max_gap [7] = Raise ValueError) /\
  (exists gaps,
     compute_gaps [5; 6; 7; 10; 11; 13] = Ret gaps /\
     Z.of_nat (length gaps) = 5 /\
     gaps !! 2%nat = Some 3).
Proof.
  split.
  - destruct (compute_gaps_returns [7]) as (gaps & Heq & Hlen & _ & Hshort).
    exists gaps. split; [exact Heq|].
    split; [apply Hlen; cbn; lia|].
    apply Hshort. cbn. lia.
  - destruct (compute_gaps_returns [5; 6; 7; 10; 11; 13])
      as (gaps & Heq & Hlen & Hel & _).
    exists gaps. split; [exact Heq|].
    split; [apply Hlen; cbn; lia|].
    apply (Hel 3%nat 10 7); [lia | reflexivity | reflexivity].
Defined.

(** ** Residues modulo 283 *)

Section Residues.

Implicit Types (l residues E : list Z) (hist : gmap Z Z) (F : gset Z).

(** Number of occurrences of [r] in [l]. *)
Local Abbreviation occurrences r l := (length (filter (fun x => x = r) l)).

Lemma Counter_step_get0 hist l r :
  get0 (foldl (fun hist x => <[x := default 0 (hist !! x) + 1]> hist) hist l) r
  = get0 hist r + Z.of_nat (occurrences r l).
Proof.
  revert hist. induction l as [|x l IH]; intros hist; cbn [foldl].
  - cbn. lia.
  - rewrite IH, filter_cons. unfold get0.
    rewrite lookup_insert.
    repeat case_decide; subst; cbn [length default]; unfold id;
      try done; lia.
Qed.

(** A [Counter] answers [get(r, 0)] with the number of occurrences of [r]. *)
Lemma Counter_get0 l r : get0 (Counter l) r = Z.of_nat (occurrences r l).
Proof. unfold Counter. rewrite Counter_step_get0. done. Qed.

Lemma foldl_add_acc (a : Z) (xs : list Z) :
  foldl Z.add a xs = a + foldl Z.add 0 xs.
Proof.
  revert a. induction xs as [|x xs IH]; intros a; cbn [foldl]; [lia|].
  rewrite (IH (a + x)), (IH (0 + x)). lia.
Qed.

Lemma py_sum_cons (x : Z) (xs : list Z) : py_sum (x :: xs) = x + py_sum xs.
Proof. unfold py_sum. cbn [foldl]. rewrite foldl_add_acc. lia. Qed.

Lemma occurrences_split (r0 : Z) E l :
  r0 ∉ E ->
  length (filter (fun x => x ∈ r0 :: E) l)
  = (occurrences r0 l + length (filter (fun x => x ∈ E) l))%nat.
Proof.
  intros Hr0. induction l as [|x l IH]; [done|].
  rewrite !filter_cons.
  destruct (decide (x = r0)) as [->|Hne].
  - rewrite decide_True by left. rewrite decide_False by done.
    cbn [length]. lia.
  - destruct (decide (x ∈ E)) as [Hin|Hnin].
    + rewrite decide_True by (by right). cbn [length]. lia.
    + rewrite decide_False; [done|]. by intros [?|?]%elem_of_cons.
Qed.

(** Summing the occurrence counts over distinct values counts the elements
    that take one of these values. *)
Lemma sum_occurrences E l :
  NoDup E ->
  py_sum ((fun r => Z.of_nat (occurrences r l)) <$> E)
  = Z.of_nat (length (filter (fun x => x ∈ E) l)).
Proof.
  induction 1 as [|r0 E Hr0 Hnd IH].
  - cbn. induction l as [|x l IHl]; [done|].
    rewrite filter_cons, decide_False; [done|]. by intros ?%elem_of_nil.
  - rewrite fmap_cons, py_sum_cons, IH, occurrences_split by done. lia.
Qed.

Lemma filter_fmap_length (f : Z -> Z) F l :
  length (filter (fun x => x ∈ F) (f <$> l))
  = length (filter (fun n => f n ∈ F) l).
Proof.
  induction l as [|x l IH]; [done|].
  rewrite fmap_cons, !filter_cons.
  destruct (decide (f x ∈ F)); cbn [length]; by rewrite IH.
Qed.

(** The sum over the forbidden set counts the sequence elements whose
    residue is forbidden. *)
Lemma forbidden_count_spec F l :
  py_sum (get0 (Counter ((fun n => n mod 283) <$> l)) <$> elements F)
  = Z.of_nat (length (in_forbidden F l)).
Proof.
  unfold in_forbidden.
  rewrite <- (filter_fmap_length (fun n => n mod 283)).
  erewrite list_fmap_ext; [|intros i r _; apply Counter_get0].
  rewrite sum_occurrences by apply NoDup_elements.
  f_equal. f_equal. apply list_filter_iff. intros x. apply elem_of_elements.
Qed.

Lemma residues_spec l :
  residues_of l 283 = Ret ((fun n => n mod 283) <$> l).
Proof.
  induction l as [|x l IH]; [done|].
  cbn [residues_of]. rewrite py_mod_nonzero by done. by rewrite IH.
Qed.

(** The comprehension keeps the elements of the range whose 47th power is
    1 modulo [p]. *)
Lemma roots_of_unity_from_spec p xs :
  p <> 0 ->
  roots_of_unity_from xs p = Ret (filter (fun x => x ^ 47 mod p = 1) xs).
Proof.
  intros Hp. induction xs as [|x xs IH]; [done|].
  cbn [roots_of_unity_from].
  rewrite py_pow3_nonneg, IH, !bind_Ret, filter_cons by (done || lia).
  destruct (Z.eqb_spec (x ^ 47 mod p) 1); by case_decide.
Qed.

(** The loop adds one residue for each root other than 1. *)
Lemma forbidden_loop_spec roots : forall F,
  forbidden_loop roots 283 F
  = Ret (F ∪ list_to_set (forbidden_of <$> filter (fun r => r <> 1) roots)).
Proof.
  induction roots as [|r roots IH]; intros F; cbn [forbidden_loop].
  - cbn. by rewrite (right_id_L ∅ (∪)).
  - rewrite filter_cons. destruct (Z.eqb_spec r 1) as [->|Hne]; cbn [negb].
    + by rewrite IH, decide_False by (intros H; by apply H).
    + change (283 - 2) with 281.
      rewrite py_pow3_nonneg, bind_Ret by (done || lia).
      rewrite py_mod_nonzero, bind_Ret by done.
      rewrite IH, decide_True by done.
      rewrite fmap_cons, list_to_set_cons. f_equal.
      unfold forbidden_of.
      by rewrite (comm_L (∪) _ F), <- (assoc_L (∪)).
Qed.

Lemma forbidden_loop_empty roots :
  forbidden_loop roots 283 ∅
  = Ret (list_to_set (forbidden_of <$> filter (fun r => r <> 1) roots)).
Proof. by rewrite forbidden_loop_spec, (left_id_L ∅ (∪)). Qed.

Lemma roots_of_unity_283 : roots_of_unity 283 = Ret roots_283.
Proof. unfold roots_of_unity. by apply roots_of_unity_from_spec. Qed.

Lemma forbidden_residues_283 : forbidden_residues 283 = Ret forbidden_283.
Proof.
  unfold forbidden_residues. rewrite roots_of_unity_283, bind_Ret.
  apply forbidden_loop_empty.
Qed.

Lemma nontrivial_283_fast_eq : nontrivial_283 = nontrivial_283_fast.
Proof.
  unfold nontrivial_283, roots_283, nontrivial_283_fast.
  generalize (seqZ 1 282). intros xs.
  rewrite (list_filter_iff (fun x => x ^ 47 mod 283 = 1)
             (fun x => pow_mod x 47 283 = 1)); [done|].
  intros x. by rewrite pow_mod_spec.
Qed.

Lemma forbidden_of_fast_eq r : forbidden_of r = forbidden_of_fast r.
Proof. unfold forbidden_of, forbidden_of_fast. by rewrite pow_mod_spec. Qed.

Lemma forbidden_list_fast_eq :
  forbidden_of <$> nontrivial_283 = forbidden_of_fast <$> nontrivial_283_fast.
Proof.
  rewrite nontrivial_283_fast_eq. apply list_fmap_ext.
  intros _ r _. apply forbidden_of_fast_eq.
Qed.

Lemma nontrivial_283_length : length nontrivial_283 = 46%nat.
Proof. rewrite nontrivial_283_fast_eq. compute_done. Qed.

Lemma nontrivial_283_inverses :
  Forall (fun r => (r - 1) * ((r - 1) ^ 281 mod 283) mod 283 = 1)
    nontrivial_283.
Proof.
  rewrite nontrivial_283_fast_eq.
  assert (Hfast : Forall (fun r => (r - 1) * pow_mod (r - 1) 281 283 mod 283 = 1)
                    nontrivial_283_fast) by compute_done.
  eapply Forall_impl; [exact Hfast|].
  intros r Hr. cbv beta in Hr. by rewrite pow_mod_spec in Hr.
Qed.

(** The residues attached to the roots other than 1 are pairwise
    distinct. *)
Lemma forbidden_of_NoDup : NoDup (forbidden_of <$> nontrivial_283).
Proof. rewrite forbidden_list_fast_eq. compute_done. Qed.

Lemma forbidden_of_nonzero : 0 ∉ forbidden_of <$> nontrivial_283.
Proof. rewrite forbidden_list_fast_eq. compute_done. Qed.

Lemma forbidden_283_size : size forbidden_283 = 46%nat.
Proof.
  unfold forbidden_283.
  rewrite size_list_to_set by apply forbidden_of_NoDup.
  rewrite length_fmap. apply nontrivial_283_length.
Qed.

Lemma analyze_residues_mod_283_spec F l :
  forbidden_residues 283 = Ret F ->
  analyze_residues_mod_283 l =
    Ret {| total_primes := Z.of_nat (length l);
           forbidden_residue_count := Z.of_nat (size F);
           primes_in_forbidden := Z.of_nat (length (in_forbidden F l));
           verification :=
             if Z.of_nat (length (in_forbidden F l)) =? 0
             then "PASS" else "FAIL" |}.
Proof.
  intros HF. unfold analyze_residues_mod_283. cbv zeta.
  rewrite HF, bind_Ret, residues_spec, bind_Ret.
  by rewrite forbidden_count_spec.
Qed.

End Residues.

(** ** Claims on the residue analysis *)

(** C7. For every input sequence the analysis returns a report whose
    [primes_in_forbidden] field is the number of sequence elements whose
    residue modulo 283 lies in the forbidden set, and whose [verification]
    field is ["PASS"] if and only if that number is zero and ["FAIL"] if
    and only if it is not. *)
Theorem verification_pass_iff_none_forbidden (n_values : list Z) :
  exists forbidden report,
    forbidden_residues 283 = Ret forbidden /\
    analyze_residues_mod_283 n_values = Ret report /\
    primes_in_forbidden report
      = Z.of_nat (length (in_forbidden forbidden n_values)) /\
    (verification report = "PASS" <->
       length (in_forbidden forbidden n_values) = 0%nat) /\
    (verification report = "FAIL" <->
       length (in_forbidden forbidden n_values) <> 0%nat).
Proof.
  eexists _, _. split; [apply forbidden_residues_283|].
  split; [apply analyze_residues_mod_283_spec, forbidden_residues_283|].
  cbn [primes_in_forbidden verification]. split; [done|].
  destruct (Z.eqb_spec
              (Z.of_nat (length (in_forbidden forbidden_283 n_values))) 0)
    as [Hz|Hnz].
  - split; split; intros H; (discriminate || reflexivity || lia).
  - split; split; intros H; (discriminate || reflexivity || lia).
Qed.

(** C10. The forbidden set computed for the modulus 283 and the exponent
    47 has exactly 46 elements, and 0 is not one of them.  The roots of
    unity found are the [r] in [1, 283) with [r^47 = 1] modulo 283; there
    are 46 of them besides 1; for each of these [(r - 1)^281] is the
    inverse of [r - 1]; the forbidden set consists of their residues
    [forbidden_of r], which are pairwise distinct.  Every report of the
    analysis carries the count 46. *)
Theorem forbidden_residues_283_has_46_classes :
  exists roots forbidden,
    roots_of_unity 283 = Ret roots /\
    forbidden_residues 283 = Ret forbidden /\
    (forall r, r ∈ roots <-> 1 <= r < 283 /\ r ^ 47 mod 283 = 1) /\
    length (filter (fun r => r <> 1) roots) = 46%nat /\
    Forall (fun r => (r - 1) * ((r - 1) ^ 281 mod 283) mod 283 = 1)
      (filter (fun r => r <> 1) roots) /\
    forbidden = list_to_set (forbidden_of <$> filter (fun r => r <> 1) roots) /\
    NoDup (forbidden_of <$> filter (fun r => r <> 1) roots) /\
    size forbidden = 46%nat /\
    (0 ∉ forbidden) /\
    (forall n_values, exists report,
       analyze_residues_mod_283 n_values = Ret report /\
       forbidden_residue_count report = 46).
Proof.
  exists roots_283, forbidden_283.
  split; [apply roots_of_unity_283|].
  split; [apply forbidden_residues_283|].
  split_and!.
  - intros r. unfold roots_283.
    rewrite list_elem_of_filter, elem_of_seqZ. intuition lia.
  - apply nontrivial_283_length.
  - apply nontrivial_283_inverses.
  - reflexivity.
  - apply forbidden_of_NoDup.
  - apply forbidden_283_size.
  - unfold forbidden_283. rewrite elem_of_list_to_set.
    apply forbidden_of_nonzero.
  - intros n_values. eexists. split.
    + apply analyze_residues_mod_283_spec, forbidden_residues_283.
    + cbn [forbidden_residue_count]. by rewrite forbidden_283_size.
Qed.

(** ** The primality test on primes *)

Section MillerRabinPrimes.

(** Modulo a prime, 1 has no square roots besides 1 and -1. *)
Lemma sqrt_one_prime n z :
  Z.prime n -> 0 <= z < n -> z * z mod n = 1 -> z = 1 \/ z = n - 1.
Proof.
  intros Hp Hz Hsq. pose proof (Z.prime_ge_2 _ Hp) as Hn.
  assert (Hdiv : (n | (z - 1) * (z + 1))).
  { exists (z * z / n). pose proof (Z.div_mod (z * z) n). lia. }
  apply (Z.divide_prime_mul _ _ _ Hp) in Hdiv as [[q Hq]|[q Hq]].
  - left. assert (q = 0) by nia. lia.
  - right. assert (q = 1) by nia. lia.
Qed.

(** If the [2^j]-th power of [y] is 1 modulo a prime, then [y] is 1 or one
    of the earlier repeated squares of [y] is -1. *)
Lemma square_chain n y (j : nat) :
  Z.prime n -> 0 <= y < n -> y ^ (2 ^ Z.of_nat j) mod n = 1 ->
  y = 1 \/ exists i, 0 <= i < Z.of_nat j /\ y ^ (2 ^ i) mod n = n - 1.
Proof.
  intros Hp Hy. pose proof (Z.prime_ge_2 _ Hp) as Hn.
  induction j as [|j IH]; intros Hpow.
  - left. cbn in Hpow. rewrite Z.pow_1_r, Z.mod_small in Hpow by lia. done.
  - rewrite Nat2Z.inj_succ, Z.pow_succ_r, Z.mul_comm in Hpow by lia.
    rewrite Z.pow_mul_r in Hpow by lia.
    rewrite <- Z.mod_pow_l, Z.pow_2_r in Hpow.
    apply sqrt_one_prime in Hpow as [H1|Hm1]; [| |done|].
    + destruct (IH H1) as [?|(i & Hi & Heq)]; [by left|].
      right. exists i. split; [lia | done].
    + right. exists (Z.of_nat j). split; [lia | done].
    + apply Z.mod_pos_bound. lia.
Qed.

(** The squaring loop leaves through [break] when one of the squares it
    computes is [n - 1]. *)
Lemma square_loop_hits n iters : forall x,
  n <> 0 ->
  (exists t, 1 <= t <= Z.of_nat iters /\ x ^ (2 ^ t) mod n = n - 1) ->
  square_loop iters x n = Ret true.
Proof.
  induction iters as [|iters IH]; intros x Hn (t & Ht & Hpow); [lia|].
  cbn [square_loop]. rewrite py_pow3_nonneg, bind_Ret by lia.
  destruct (Z.eqb_spec (x ^ 2 mod n) (n - 1)) as [|Hne]; [done|].
  apply IH; [done|]. exists (t - 1).
  assert (t <> 1) by (intros ->; by rewrite Z.pow_1_r in Hpow).
  split; [lia|].
  rewrite Z.mod_pow_l, <- Z.pow_mul_r by lia.
  replace (2 * 2 ^ (t - 1)) with (2 ^ t); [done|].
  replace t with (Z.succ (t - 1)) at 1 by lia.
  by rewrite Z.pow_succ_r by lia.
Qed.

(** On a prime [n], every base [a] in [1, n) passes its round. *)
Lemma witness_round_prime n r d a :
  Z.prime n -> 0 <= r -> 0 < d -> n - 1 = 2 ^ r * d -> 1 <= a < n ->
  a ^ d mod n = 1 \/ a ^ d mod n = n - 1 \/
  square_loop (Z.to_nat (r - 1)) (a ^ d mod n) n = Ret true.
Proof.
  intros Hp Hr Hd Hdec Ha. pose proof (Z.prime_ge_2 _ Hp) as Hn.
  assert (Hfermat : a ^ (n - 1) mod n = 1).
  { apply ZmodInv.Z.fermat_nz; [done|]. rewrite Z.mod_small; lia. }
  rewrite Hdec, Z.mul_comm, Z.pow_mul_r, <- Z.mod_pow_l in Hfermat by lia.
  rewrite <- (Z2Nat.id r) in Hfermat by done.
  apply square_chain in Hfermat as [H1|(i & Hi & Hpow)]; [by left|..|done|].
  - destruct (Z.eq_dec i 0) as [->|Hi0].
    + right. left. rewrite Z.pow_0_r, Z.pow_1_r, Z.mod_mod in Hpow by lia.
      done.
    + right. right. apply square_loop_hits; [lia|].
      exists i. split; [lia | done].
  - apply Z.mod_pos_bound. lia.
Qed.

Lemma witness_loop_prime ws n r d :
  Z.prime n -> 0 <= r -> 0 < d -> n - 1 = 2 ^ r * d ->
  Forall (fun a => 1 <= a) ws ->
  witness_loop ws n r d = Ret true.
Proof.
  intros Hp Hr Hd Hdec. pose proof (Z.prime_ge_2 _ Hp) as Hn.
  induction 1 as [|a ws Ha Hws IH]; cbn [witness_loop]; [done|].
  destruct (Z.geb_spec a n) as [|Hlt]; [done|].
  rewrite py_pow3_nonneg, bind_Ret by lia.
  destruct (witness_round_prime n r d a) as [H1|[Hm1|Hloop]];
    [done | done | done | done | lia | ..].
  - by rewrite H1, Z.eqb_refl.
  - by rewrite Hm1, Z.eqb_refl, orb_true_r.
  - destruct (_ || _); [done|]. by rewrite Hloop, bind_Ret.
Qed.

(** The test accepts every prime. *)
Lemma is_probable_prime_of_prime n k :
  Z.prime n -> is_probable_prime n k = Ret true.
Proof.
  intros Hp. pose proof (Z.prime_ge_2 _ Hp) as Hn.
  unfold is_probable_prime, is_probable_prime_fuel.
  destruct (Z.ltb_spec n 2); [lia|].
  destruct (Z.eqb_spec n 2); [done|]. destruct (Z.eqb_spec n 3); [done|].
  cbn [orb].
  destruct (Z.eqb_spec (n mod 2) 0) as [Heven|Hodd].
  { exfalso. destruct Hp as [_ Hp]. apply (Hp 2); [lia|].
    apply Z.mod_divide; [lia | done]. }
  destruct (decompose_returns (decompose_fuel n) 0 (n - 1))
    as (r & d & -> & Hd & Hr & _ & Hdec); [lia | |].
  { unfold decompose_fuel. pose proof (Z.log2_nonneg n).
    pose proof (Z.log2_le_mono (n - 1) n). lia. }
  rewrite bind_Ret, Z.sub_0_r in *.
  apply witness_loop_prime; try done.
  unfold witnesses. repeat constructor; lia.
Qed.

End MillerRabinPrimes.

(** ** The test against trial division *)

Section SmallOperands.

Lemma trial_prime_sound n : trial_prime n = true -> Z.prime n.
Proof.
  unfold trial_prime. intros [Hn Hall]%andb_prop.
  apply Z.leb_le in Hn. split; [lia|].
  intros m Hm [q Hq].
  assert (Hq1 : 1 < q < n) by nia.
  set (c := Z.min m q).
  assert (Hc : 2 <= c <= Z.sqrt n).
  { split; [unfold c; lia|]. apply Z.sqrt_le_square; [lia | unfold c; lia |].
    unfold c. nia. }
  assert (Hdiv : n mod c = 0).
  { unfold c. destruct (Z.min_spec m q) as [[_ ->]|[_ ->]].
    - rewrite Hq. apply Z.mod_mul. lia.
    - rewrite Hq, Z.mul_comm. apply Z.mod_mul. lia. }
  rewrite forallb_forall in Hall. specialize (Hall c).
  rewrite Hdiv in Hall. cbn in Hall.
  assert (c ∈ seqZ 2 (Z.sqrt n - 1)) as Hin%list_elem_of_In
    by (apply elem_of_seqZ; lia).
  by specialize (Hall Hin).
Qed.

Lemma agree_from_spec count : forall n0 n,
  agree_from count n0 = true -> n0 <= n < n0 + Z.of_nat count ->
  accepted n = true -> trial_prime n = true.
Proof.
  induction count as [|count IH]; intros n0 n Hagree Hn Hacc; [lia|].
  cbn [agree_from] in Hagree.
  destruct (Z.eq_dec n n0) as [->|Hne].
  - rewrite Hacc in Hagree. by destruct (trial_prime n0).
  - destruct (if accepted n0 then trial_prime n0 else true); [|done].
    apply (IH (n0 + 1)); [done | lia | done].
Qed.

(** Below 10000 every operand the test accepts passes trial division. *)
Lemma agree_below_10000 : agree_from (Z.to_nat 10000) 0 = true.
Proof. vm_compute. reflexivity. Qed.

End SmallOperands.

(** ** Further properties of the primality test and of Q *)

(** X1. The test never rejects a prime: on a prime operand it returns
    [True], whatever [k]; so a [False] verdict proves that the operand is
    not prime. *)
Theorem is_probable_prime_accepts_primes (n k : Z) :
  (Z.prime n -> is_probable_prime n k = Ret true) /\
  (is_probable_prime n k = Ret false -> ~ Z.prime n).
Proof.
  split; [apply is_probable_prime_of_prime|].
  intros Hfalse Hp. by rewrite (is_probable_prime_of_prime n k Hp) in Hfalse.
Qed.

Lemma prime_7 : Z.prime 7.
Proof. apply trial_prime_sound. reflexivity. Qed.

Lemma is_probable_prime_accepts_primes_witness :
  is_probable_prime 7 default_k = Ret true /\ ~ Z.prime 561.
Proof.
  split.
  - apply (proj1 (is_probable_prime_accepts_primes 7 default_k)), prime_7.
  - apply (proj2 (is_probable_prime_accepts_primes 561 default_k)).
    vm_compute. reflexivity.
Defined.

(** X2. Below 10000 the verdict of the test is exact: for every operand
    [n < 10000] it returns [True] if and only if [n] is prime. *)
Theorem is_probable_prime_exact_below_10000 (n k : Z) :
  n < 10000 -> (is_probable_prime n k = Ret true <-> Z.prime n).
Proof.
  intros Hn. split; [|apply is_probable_prime_of_prime].
  intros Htrue. apply trial_prime_sound.
  destruct (Z.lt_ge_cases n 0) as [Hneg|Hpos].
  { exfalso. unfold is_probable_prime, is_probable_prime_fuel in Htrue.
    by destruct (Z.ltb_spec n 2); [|lia]. }
  apply (agree_from_spec _ 0 n agree_below_10000); [lia|].
  unfold accepted.
  change (is_probable_prime n default_k) with (is_probable_prime n k).
  by rewrite Htrue.
Qed.

Lemma is_probable_prime_exact_below_10000_witness :
  561 < 10000 /\ (is_probable_prime 561 default_k = Ret true <-> Z.prime 561).
Proof.
  split; [lia|].
  apply (is_probable_prime_exact_below_10000 561 default_k). lia.
Defined.

(** ** The polynomial Q *)

Section Polynomial.

Lemma Q_symmetric n : Q (1 - n) = Q n.
Proof.
  unfold Q.
  replace (1 - n) with (- (n - 1)) by lia.
  replace (- (n - 1) - 1) with (- n) by lia.
  rewrite !Z.pow_opp_odd by (exists 23; lia). lia.
Qed.

Lemma Q_lower_bound n : 1 <= n -> n ^ 46 <= Q n.
Proof.
  intros Hn. unfold Q. change 47 with (Z.succ 46).
  rewrite !Z.pow_succ_r by lia.
  assert (H1 : (n - 1) ^ 46 <= n ^ 46) by (apply Z.pow_le_mono_l; lia).
  generalize dependent (n ^ 46). generalize ((n - 1) ^ 46). intros b a H1.
  assert (H2 : (n - 1) * b <= (n - 1) * a)
    by (apply Z.mul_le_mono_nonneg_l; lia).
  lia.
Qed.

Lemma Q_positive n : 1 <= Q n.
Proof.
  destruct (Z.le_gt_cases 1 n) as [Hn|Hn].
  - pose proof (Q_lower_bound n Hn).
    assert (0 < n ^ 46) by (apply Z.pow_pos_nonneg; lia). lia.
  - rewrite <- Q_symmetric. pose proof (Q_lower_bound (1 - n)).
    assert (0 < (1 - n) ^ 46) by (apply Z.pow_pos_nonneg; lia). lia.
Qed.

Lemma Q_odd n : Q n mod 2 = 1.
Proof.
  unfold Q. rewrite Zminus_mod.
  rewrite <- (Z.mod_pow_l n), <- (Z.mod_pow_l (n - 1)).
  assert (Hcases : n mod 2 = 0 /\ (n - 1) mod 2 = 1 \/
                   n mod 2 = 1 /\ (n - 1) mod 2 = 0).
  { pose proof (Z.div_mod n 2). pose proof (Z.div_mod (n - 1) 2).
    pose proof (Z.mod_pos_bound n 2). pose proof (Z.mod_pos_bound (n - 1) 2).
    lia. }
  destruct Hcases as [[-> ->]|[-> ->]]; reflexivity.
Qed.

(** Away from 0 and 1 the value of Q exceeds 2^46. *)
Lemma Q_large n : n <= -1 \/ 2 <= n -> 2 ^ 46 <= Q n.
Proof.
  assert (Hpos : forall m, 2 <= m -> 2 ^ 46 <= Q m).
  { intros m Hm. pose proof (Q_lower_bound m).
    assert (2 ^ 46 <= m ^ 46) by (apply Z.pow_le_mono_l; lia). lia. }
  intros [Hn|Hn]; [|by apply Hpos].
  rewrite <- Q_symmetric. apply Hpos. lia.
Qed.

Lemma Q_mod_283 n : Q n mod 283 = Q (n mod 283) mod 283.
Proof.
  unfold Q. rewrite Zminus_mod, (Zminus_mod ((n mod 283) ^ 47)).
  rewrite <- (Z.mod_pow_l n), <- (Z.mod_pow_l (n - 1)).
  rewrite <- (Z.mod_pow_l (n mod 283)), <- (Z.mod_pow_l (n mod 283 - 1)).
  by rewrite (Zminus_mod_idemp_l n 1 283).
Qed.

(** Residue by residue, the forbidden classes are those on which 283
    divides Q. *)
Lemma forbidden_283_residues :
  (fun F : list Z =>
     forallb
       (fun r =>
          Bool.eqb (bool_decide (r ∈ F))
            ((pow_mod r 47 283 - pow_mod (r - 1) 47 283) mod 283 =? 0))
       (seqZ 0 283))
    (forbidden_of_fast <$> nontrivial_283_fast) = true.
Proof. vm_compute. reflexivity. Qed.

Lemma forbidden_283_iff n : n mod 283 ∈ forbidden_283 <-> (283 | Q n).
Proof.
  rewrite <- Z.mod_divide, Q_mod_283 by done.
  unfold forbidden_283. rewrite elem_of_list_to_set, forbidden_list_fast_eq.
  pose proof forbidden_283_residues as Hall. cbv beta in Hall.
  rewrite forallb_forall in Hall. specialize (Hall (n mod 283)).
  unfold Q. rewrite Zminus_mod, <- !pow_mod_spec by done.
  rewrite <- Z.eqb_eq.
  assert (Hin : In (n mod 283) (seqZ 0 283)).
  { apply list_elem_of_In, elem_of_seqZ.
    pose proof (Z.mod_pos_bound n 283). lia. }
  apply Hall, Bool.eqb_prop in Hin. rewrite <- Hin.
  split; [apply bool_decide_eq_true_2 | apply bool_decide_eq_true_1].
Qed.

(** No value of Q divisible by 283 is prime. *)
Lemma Q_divisible_not_prime n : (283 | Q n) -> ~ Z.prime (Q n).
Proof.
  intros Hdiv [_ Hp]. apply (Hp 283); [|done].
  assert (n <= -1 \/ 2 <= n \/ n = 0 \/ n = 1) as [H|[H|[->| ->]]] by lia.
  - pose proof (Q_large n (or_introl H)). lia.
  - pose proof (Q_large n (or_intror H)). lia.
  - exfalso. destruct Hdiv as [q Hq].
    change (Q 0) with 1 in Hq. lia.
  - exfalso. destruct Hdiv as [q Hq].
    change (Q 1) with 1 in Hq. lia.
Qed.

End Polynomial.

(** X3. Every value of Q is a positive odd integer, and Q takes the same
    value at [n] and [1 - n]; from [n = 2] on it is at least [n^46]. *)
Theorem Q_positive_odd_symmetric (n : Z) :
  1 <= Q n /\ Q n mod 2 = 1 /\ Q (1 - n) = Q n /\ (1 <= n -> n ^ 46 <= Q n).
Proof.
  split; [apply Q_positive|]. split; [apply Q_odd|].
  split; [apply Q_symmetric | apply Q_lower_bound].
Qed.

Lemma Q_positive_odd_symmetric_witness :
  1 <= Q 13 /\ Q 13 mod 2 = 1 /\ Q (1 - 13) = Q 13 /\ 13 ^ 46 <= Q 13.
Proof.
  destruct (Q_positive_odd_symmetric 13) as (H1 & H2 & H3 & H4).
  split; [exact H1|]. split; [exact H2|]. split; [exact H3|].
  apply H4. lia.
Defined.

(** X4. The forbidden set computed for 283 is the set of residues on which
    283 divides Q: for every integer [n], [n mod 283] is forbidden if and
    only if 283 divides [Q n], and then [Q n] is not prime. *)
Theorem forbidden_iff_283_divides_Q :
  exists forbidden,
    forbidden_residues 283 = Ret forbidden /\
    forall n, (n mod 283 ∈ forbidden <-> (283 | Q n)) /\
              (n mod 283 ∈ forbidden -> ~ Z.prime (Q n)).
Proof.
  exists forbidden_283. split; [apply forbidden_residues_283|].
  intros n. split; [apply forbidden_283_iff|].
  intros Hin. by apply Q_divisible_not_prime, forbidden_283_iff.
Qed.

Lemma forbidden_iff_283_divides_Q_witness :
  exists forbidden,
    forbidden_residues 283 = Ret forbidden /\
    (283 | Q 293) /\ ~ Z.prime (Q 293).
Proof.
  destruct forbidden_iff_283_divides_Q as (forbidden & Hret & Hall).
  exists forbidden. split; [exact Hret|].
  destruct (Hall 293) as [Hiff Hnp].
  assert (Hdiv : (283 | Q 293)).
  { apply Z.mod_divide; [lia|]. vm_compute. reflexivity. }
  split; [exact Hdiv|]. apply Hnp, Hiff, Hdiv.
Defined.

(** X5. A failed verification convicts the data: when the report of
    [analyze_residues_mod_283] says ["FAIL"], some element [n] of the
    sequence has [Q n] divisible by 283 and hence not prime.  So a sequence
    all of whose elements give a prime [Q n] is reported ["PASS"]. *)
Theorem verification_fail_finds_composite (n_values : list Z) report :
  analyze_residues_mod_283 n_values = Ret report ->
  (verification report = "FAIL" ->
     exists n, n ∈ n_values /\ (283 | Q n) /\ ~ Z.prime (Q n)) /\
  ((forall n, n ∈ n_values -> Z.prime (Q n)) ->
     verification report = "PASS").
Proof.
  rewrite (analyze_residues_mod_283_spec forbidden_283)
    by apply forbidden_residues_283.
  intros <-%Ret_inj. cbn [verification].
  destruct (in_forbidden forbidden_283 n_values) as [|n rest] eqn:Hin.
  - split; [done|]. intros _. reflexivity.
  - assert (Hn : n ∈ in_forbidden forbidden_283 n_values)
      by (rewrite Hin; left).
    apply list_elem_of_filter in Hn as [Hn Hel].
    apply forbidden_283_iff in Hn.
    pose proof (Q_divisible_not_prime n Hn) as Hnp.
    split; [by exists n|].
    intros Hall. exfalso. by apply Hnp, Hall.
Qed.

Lemma verification_fail_finds_composite_witness :
  exists n, n ∈ [13; 10; 14] /\ (283 | Q n) /\ ~ Z.prime (Q n).
Proof.
  destruct (analyze_residues_mod_283 [13; 10; 14]) as [report| |] eqn:Hrep;
    [|vm_compute in Hrep; discriminate..].
  apply (proj1 (verification_fail_finds_composite [13; 10; 14] report Hrep)).
  vm_compute in Hrep. injection Hrep as <-. reflexivity.
Defined.

(** ** Runs of arbitrary lists, and gaps *)

Section RunsAndGaps.

Implicit Types (l rest gaps : list Z) (rs : list (Z * Z)).

(** Restricting the blocks to a given length [k >= 2] can go through the
    clusters. *)
Lemma filter_length_clusters rs k :
  2 <= k ->
  filter (fun r => r.2 = k) rs
  = filter (fun r => r.2 = k) (filter (fun r => 2 <= r.2) rs).
Proof.
  intros Hk. rewrite list_filter_filter. apply list_filter_iff.
  intros r. split; [intros ->; split; [done | lia] | by intros [? _]].
Qed.

(** Each block is a contiguous slice of the list. *)
Lemma runs_slice l r :
  r ∈ runs l -> exists before after, l = before ++ expand r ++ after.
Proof.
  intros (rs1 & rs2 & Hsplit)%list_elem_of_split.
  exists (rs1 ≫= expand), (rs2 ≫= expand).
  rewrite <- (runs_expand l) at 1. by rewrite Hsplit, bind_app, bind_cons.
Qed.

Lemma expansion_length rs :
  Forall (fun r => 1 <= r.2) rs ->
  Z.of_nat (length (rs ≫= expand)) = py_sum rs.*2.
Proof.
  induction 1 as [|[s len] rs Hlen _ IH]; [done|].
  rewrite bind_cons, length_app, fmap_cons, py_sum_cons, Nat2Z.inj_add, IH.
  unfold expand. cbn [fst snd] in *. rewrite length_seqZ. lia.
Qed.

(** The lengths of the blocks split into those of the clusters and one per
    singleton. *)
Lemma lengths_split rs :
  Forall (fun r => 1 <= r.2) rs ->
  py_sum rs.*2
  = py_sum (filter (fun r => 2 <= r.2) rs).*2
    + Z.of_nat (length (filter (fun r => r.2 = 1) rs).*1).
Proof.
  induction 1 as [|[s len] rs Hlen _ IH]; [done|].
  cbn [snd] in Hlen. rewrite !filter_cons, fmap_cons, py_sum_cons, IH.
  cbn [snd]. repeat case_decide; try lia;
    rewrite ?fmap_cons, ?py_sum_cons; cbn [length snd]; lia.
Qed.

(** [compute_gaps] computes [gaps_of]. *)
Lemma compute_gaps_loop_gaps_of l count : forall i gaps,
  length l = (S i + count)%nat ->
  compute_gaps_loop (seq (S i) count) l gaps
  = Ret (gaps ++ gaps_of (drop i l)).
Proof.
  induction count as [|count IH]; intros i gaps Hlen.
  - destruct (lookup_lt_is_Some_2 l i) as [x Hx]; [lia|].
    rewrite (drop_S _ _ _ Hx), drop_ge by lia. cbn. by rewrite app_nil_r.
  - destruct (lookup_lt_is_Some_2 l i) as [x Hx]; [lia|].
    destruct (lookup_lt_is_Some_2 l (S i)) as [y Hy]; [lia|].
    cbn [seq compute_gaps_loop]. rewrite (index_lookup _ _ _ Hy).
    replace (S i - 1)%nat with i by lia.
    rewrite (index_lookup _ _ _ Hx), !bind_Ret.
    rewrite (IH (S i)) by lia.
    rewrite (drop_S _ _ _ Hx), (drop_S _ _ _ Hy). cbn [gaps_of].
    by rewrite <- app_assoc.
Qed.

Lemma compute_gaps_gaps_of l : compute_gaps l = Ret (gaps_of l).
Proof.
  unfold compute_gaps. destruct l as [|x l]; [done|].
  cbn [length]. replace (S (length l) - 1)%nat with (length l) by lia.
  by rewrite (compute_gaps_loop_gaps_of (x :: l) (length l) 0 []).
Qed.

(** Each block of length [len] accounts for [len - 1] gaps equal to 1. *)
Lemma unit_gaps_runs l :
  Z.of_nat (length (filter (fun g => g = 1) (gaps_of l)))
  = py_sum ((fun r => r.2 - 1) <$> runs l).
Proof.
  induction l as [|x rest IH]; [done|].
  cbn [runs]. destruct rest as [|y rest'].
  { cbn. done. }
  pose proof (runs_head (y :: rest')) as Hhead.
  destruct (runs (y :: rest')) as [|[s len] rs] eqn:Hruns.
  { pose proof (runs_expand (y :: rest')) as Hexp.
    by rewrite Hruns in Hexp. }
  destruct (Hhead s len rs eq_refl) as [? [= <- _]].
  change (gaps_of (x :: y :: rest')) with ((y - x) :: gaps_of (y :: rest')).
  rewrite filter_cons. rewrite fmap_cons, py_sum_cons in IH. cbn [snd] in IH.
  destruct (Z.eqb_spec y (x + 1)) as [->|Hne].
  - rewrite decide_True by lia. cbn [length].
    rewrite fmap_cons, py_sum_cons. cbn [snd]. lia.
  - rewrite decide_False by lia.
    rewrite !fmap_cons, !py_sum_cons. cbn [snd]. lia.
Qed.

Lemma excess_clusters rs :
  Forall (fun r => 1 <= r.2) rs ->
  py_sum ((fun r => r.2 - 1) <$> rs)
  = py_sum ((fun r => r.2 - 1) <$> filter (fun r => 2 <= r.2) rs).
Proof.
  induction 1 as [|[s len] rs Hlen _ IH]; [done|].
  cbn [snd] in Hlen. rewrite filter_cons, fmap_cons, py_sum_cons, IH.
  cbn [snd]. case_decide; [by rewrite fmap_cons, py_sum_cons | lia].
Qed.

(** The gaps add up to the distance from the first to the last element. *)
Lemma gaps_of_sum l a b :
  head l = Some a -> last l = Some b -> py_sum (gaps_of l) = b - a.
Proof.
  revert a. induction l as [|x rest IH]; intros a Ha Hb; [done|].
  injection Ha as ->. destruct rest as [|y rest'].
  - injection Hb as ->. cbn. lia.
  - change (gaps_of (a :: y :: rest')) with ((y - a) :: gaps_of (y :: rest')).
    rewrite py_sum_cons, (IH y); [lia | done | done].
Qed.

Lemma gaps_of_sorted l : Sorted Z.lt l -> Forall (fun g => 1 <= g) (gaps_of l).
Proof.
  induction 1 as [|x rest Hrest IH Hhd]; [constructor|].
  destruct Hhd as [|y rest' Hxy]; [constructor|].
  change (gaps_of (x :: y :: rest')) with ((y - x) :: gaps_of (y :: rest')).
  constructor; [lia | done].
Qed.

Lemma gaps_of_length l : length (gaps_of l) = (length l - 1)%nat.
Proof.
  induction l as [|x rest IH]; [done|]. destruct rest as [|y rest']; [done|].
  change (gaps_of (x :: y :: rest')) with ((y - x) :: gaps_of (y :: rest')).
  cbn [length] in *. lia.
Qed.

(** [max] of a non-empty list is one of its elements and bounds them all. *)
Lemma foldl_max_spec (xs : list Z) : forall x,
  (foldl Z.max x xs = x \/ foldl Z.max x xs ∈ xs) /\
  x <= foldl Z.max x xs /\ Forall (fun y => y <= foldl Z.max x xs) xs.
Proof.
  induction xs as [|y xs IH]; intros x; cbn [foldl].
  - split; [by left|]. split; [lia | constructor].
  - destruct (IH (Z.max x y)) as (Hin & Hle & Hall).
    split; [|split; [lia|constructor; [lia | done]]].
    destruct Hin as [Heq|Hin]; [|right; by right].
    rewrite Heq.
    destruct (Z.max_spec x y) as [[_ ->]|[_ ->]]; [right; left | by left].
Qed.

End RunsAndGaps.

(** ** Further properties of the run finders and of the gaps *)

(** X6. For [k >= 2], on any list, [find_ktuples] returns the starts of the
    clusters of [find_all_clusters] whose length is [k], in the same
    order. *)
Theorem find_ktuples_from_clusters (l : list Z) (k : Z) :
  2 <= k ->
  exists clusters,
    find_all_clusters l = Ret clusters /\
    find_ktuples l k = Ret (filter (fun c => c.2 = k) clusters).*1.
Proof.
  intros Hk. eexists. split; [apply find_all_clusters_spec|].
  by rewrite find_ktuples_spec, <- filter_length_clusters.
Qed.

Lemma find_ktuples_from_clusters_witness :
  exists clusters,
    find_all_clusters [5; 6; 7; 10; 11; 13; 12; 12] = Ret clusters /\
    find_ktuples [5; 6; 7; 10; 11; 13; 12; 12] 2
    = Ret (filter (fun c => c.2 = 2) clusters).*1.
Proof.
  apply (find_ktuples_from_clusters [5; 6; 7; 10; 11; 13; 12; 12] 2). lia.
Defined.

(** X7. Both run finders return on every list of integers, sorted or not:
    no index leaves the list.  Every cluster reported has length at least 2
    and every run reported by either finder is a contiguous slice
    [s, s+1, ..., s+len-1] of the list; for [k < 1], [find_ktuples] returns
    the empty list. *)
Theorem run_finders_total (l : list Z) (k : Z) :
  exists clusters starts,
    find_all_clusters l = Ret clusters /\
    find_ktuples l k = Ret starts /\
    (forall s len, (s, len) ∈ clusters ->
       2 <= len /\ exists before after, l = before ++ seqZ s len ++ after) /\
    (forall s, s ∈ starts ->
       exists before after, l = before ++ seqZ s k ++ after) /\
    (k < 1 -> starts = []).
Proof.
  eexists _, _. split; [apply find_all_clusters_spec|].
  split; [apply find_ktuples_spec|]. split_and!.
  - intros s len [Hlen Hr]%list_elem_of_filter. split; [done|].
    apply (runs_slice l (s, len) Hr).
  - intros s ([s' len] & -> & [Hlen Hr]%list_elem_of_filter)%list_elem_of_fmap.
    cbn in Hlen. subst len. apply (runs_slice l (s', k) Hr).
  - intros Hk. pose proof (runs_lengths l) as Hlen.
    induction Hlen as [|r rs Hr _ IH]; [done|].
    rewrite filter_cons, decide_False by lia. done.
Qed.

Lemma run_finders_total_witness :
  exists clusters starts,
    find_all_clusters [3; 4; 4; 5; 1; 2] = Ret clusters /\
    find_ktuples [3; 4; 4; 5; 1; 2] 0 = Ret starts /\
    starts = [].
Proof.
  destruct (run_finders_total [3; 4; 4; 5; 1; 2] 0)
    as (clusters & starts & H1 & H2 & _ & _ & H3).
  exists clusters, starts. split; [exact H1|]. split; [exact H2|].
  apply H3. lia.
Defined.

(** X8. Every element of a list belongs to exactly one run: the lengths of
    the clusters of [find_all_clusters] plus the number of singletons
    reported by [find_ktuples] with [k = 1] add up to the length of the
    list. *)
Theorem run_lengths_add_up (l : list Z) :
  exists clusters singles,
    find_all_clusters l = Ret clusters /\
    find_ktuples l 1 = Ret singles /\
    py_sum clusters.*2 + Z.of_nat (length singles) = Z.of_nat (length l).
Proof.
  eexists _, _. split; [apply find_all_clusters_spec|].
  split; [apply find_ktuples_spec|].
  rewrite <- lengths_split by apply runs_lengths.
  rewrite <- expansion_length by apply runs_lengths.
  by rewrite runs_expand.
Qed.

(** X9. The number of gaps equal to 1 that [main] reports is the sum of
    [length - 1] over the clusters of [find_all_clusters], on any list. *)
Theorem unit_gaps_match_clusters (l : list Z) :
  exists gaps clusters,
    compute_gaps l = Ret gaps /\
    find_all_clusters l = Ret clusters /\
    Z.of_nat (length (filter (fun g => g = 1) gaps))
    = py_sum ((fun c => c.2 - 1) <$> clusters).
Proof.
  eexists _, _. split; [apply compute_gaps_gaps_of|].
  split; [apply find_all_clusters_spec|].
  rewrite unit_gaps_runs. apply excess_clusters, runs_lengths.
Qed.

(** X10. The gaps of a non-empty list add up to its last element minus its
    first. *)
Theorem gaps_sum_telescopes (l : list Z) (a b : Z) :
  head l = Some a -> last l = Some b ->
  exists gaps, compute_gaps l = Ret gaps /\ py_sum gaps = b - a.
Proof.
  intros Ha Hb. eexists. split; [apply compute_gaps_gaps_of|].
  by apply gaps_of_sum.
Qed.

Lemma gaps_sum_telescopes_witness :
  exists gaps,
    compute_gaps [5; 6; 7; 10; 11; 13] = Ret gaps /\ py_sum gaps = 13 - 5.
Proof.
  apply (gaps_sum_telescopes [5; 6; 7; 10; 11; 13] 5 13); reflexivity.
Defined.

(** X11. For a list of at least two elements [max(gaps)] returns: its value
    is one of the gaps and bounds them all.  When the list is strictly
    increasing every gap is at least 1. *)
Theorem max_gap_returns (l : list Z) :
  (2 <= length l)%nat ->
  exists gaps m,
    compute_gaps l = Ret gaps /\
    max_gap l = Ret m /\
    m ∈ gaps /\
    Forall (fun g => g <= m) gaps /\
    (Sorted Z.lt l -> Forall (fun g => 1 <= g) gaps /\ 1 <= m).
Proof.
  intros Hlen. unfold max_gap. rewrite compute_gaps_gaps_of, bind_Ret.
  pose proof (gaps_of_length l) as Hglen.
  destruct (gaps_of l) as [|g gaps] eqn:Hgaps; [cbn in Hglen; lia|].
  destruct (foldl_max_spec gaps g) as (Hin & Hle & Hall).
  eexists _, _. split; [done|]. split; [done|].
  assert (Hmem : foldl Z.max g gaps ∈ g :: gaps).
  { destruct Hin as [->|Hin]; [left | by right]. }
  split; [done|]. split; [by constructor|].
  intros Hsorted. pose proof (gaps_of_sorted l Hsorted) as Hpos.
  rewrite Hgaps in Hpos. split; [done|].
  rewrite Forall_forall in Hpos. by apply Hpos.
Qed.

Lemma max_gap_returns_witness :
  exists gaps m,
    compute_gaps [5; 6; 7; 10; 11; 13] = Ret gaps /\
    max_gap [5; 6; 7; 10; 11; 13] = Ret m /\
    m ∈ gaps /\
    Forall (fun g => g <= m) gaps /\
    Forall (fun g => 1 <= g) gaps /\ 1 <= m.
Proof.
  assert (Hs : Sorted Z.lt [5; 6; 7; 10; 11; 13])
    by (repeat constructor; lia).
  destruct (max_gap_returns [5; 6; 7; 10; 11; 13])
    as (gaps & m & H1 & H2 & H3 & H4 & H5); [cbn; lia|].
  exists gaps, m. split; [exact H1|]. split; [exact H2|].
  split; [exact H3|]. split; [exact H4|]. exact (H5 Hs).
Defined.

(** ** Loading and normalising the sequence *)

Section Normalise.

Lemma Sorted_le_NoDup_lt (l : list Z) :
  Sorted Z.le l -> NoDup l -> Sorted Z.lt l.
Proof.
  intros Hs%(Sorted_StronglySorted _) Hnd. apply StronglySorted_Sorted.
  induction Hs as [|x l Hl IH Hx]; [constructor|].
  apply NoDup_cons in Hnd as [Hnin Hnd]. constructor; [by apply IH|].
  rewrite Forall_forall in Hx |- *. intros y Hy.
  specialize (Hx y Hy). assert (x <> y) by (by intros ->). lia.
Qed.

(** [sorted(set(l))] is strictly increasing and has the elements of [l]. *)
Lemma py_sorted_set_spec (l : list Z) :
  Sorted Z.lt (py_sorted (elements (list_to_set l : gset Z))) /\
  forall x, x ∈ py_sorted (elements (list_to_set l : gset Z)) <-> x ∈ l.
Proof.
  unfold py_sorted. split.
  - apply Sorted_le_NoDup_lt; [apply (Sorted_merge_sort _)|].
    rewrite merge_sort_Permutation. apply NoDup_elements.
  - intros x. by rewrite merge_sort_Permutation, elem_of_elements,
      elem_of_list_to_set.
Qed.

(** Sorting a list that is already increasing leaves it as it is. *)
Lemma py_sorted_sorted (l : list Z) : Sorted Z.le l -> py_sorted l = l.
Proof.
  intros Hs. apply (Sorted_unique Z.le); [apply (Sorted_merge_sort _) | done |].
  apply merge_sort_Permutation.
Qed.

Context {str : Type}.
Context (strip : str -> str) (nonempty startswith_hash isdigit : str -> bool).
Context (py_int : str -> outcome Z).

(** The test of the loader on a stripped line. *)
Local Abbreviation kept line :=
  (nonempty line && negb (startswith_hash line) && isdigit line).

Local Abbreviation load_loop' :=
  (load_loop strip nonempty startswith_hash isdigit py_int).

Lemma load_loop_spec lines : forall n_values out,
  load_loop' lines n_values = Ret out ->
  exists parsed,
    out = n_values ++ parsed /\
    forall x, x ∈ parsed <->
      exists line, line ∈ lines /\ kept (strip line) = true /\
                   py_int (strip line) = Ret x.
Proof.
  induction lines as [|line lines IH]; intros n_values out Hout.
  - injection Hout as <-. exists []. rewrite app_nil_r. split; [done|].
    intros x. split; [by intros ?%elem_of_nil|].
    by intros (? & ?%elem_of_nil & _).
  - cbn [load_loop] in Hout. cbv zeta in Hout.
    destruct (kept (strip line)) eqn:Hkept.
    + apply bind_returns in Hout as (n & Hint & Hout).
      destruct (IH _ _ Hout) as (parsed & -> & Hparsed).
      exists (n :: parsed). rewrite <- app_assoc. split; [done|].
      intros x. rewrite elem_of_cons, Hparsed. split.
      * intros [->|(l' & Hl' & Hk & Hi)]; [exists line | exists l'];
          (split; [by constructor | done]).
      * intros (l' & [->|Hl']%elem_of_cons & Hk & Hi).
        -- left. rewrite Hint in Hi. by injection Hi.
        -- right. by exists l'.
    + destruct (IH _ _ Hout) as (parsed & -> & Hparsed).
      exists parsed. split; [done|].
      intros x. rewrite Hparsed. split.
      * intros (l' & Hl' & Hk & Hi). exists l'. split; [by right | done].
      * intros (l' & [->|Hl']%elem_of_cons & Hk & Hi);
          [congruence | by exists l'].
Qed.

Lemma load_loop_returns lines : forall n_values,
  (forall line, line ∈ lines -> kept (strip line) = true ->
     returns (py_int (strip line))) ->
  returns (load_loop' lines n_values).
Proof.
  induction lines as [|line lines IH]; intros n_values Hints.
  - by eexists.
  - cbn [load_loop]. cbv zeta.
    assert (Hrest : forall l', l' ∈ lines -> kept (strip l') = true ->
              returns (py_int (strip l'))) by (intros; apply Hints; by try right).
    destruct (kept (strip line)) eqn:Hkept; [|by apply IH].
    destruct (Hints line) as [n ->]; [left | done |].
    rewrite bind_Ret. by apply IH.
Qed.

End Normalise.

(** X12. When [load_prime_n_values] returns, its result is strictly
    increasing (sorted, without duplicates), and it consists of the integers
    [int(line)] of the stripped lines that are non-empty, do not start with
    ['#'] and satisfy [isdigit].  It returns whenever [int] does on every
    such line. *)
Theorem load_prime_n_values_sorted {str : Type}
    (strip : str -> str) (nonempty startswith_hash isdigit : str -> bool)
    (py_int : str -> outcome Z) (lines : list str) :
  let load := load_prime_n_values strip nonempty startswith_hash isdigit py_int in
  let kept line := nonempty line && negb (startswith_hash line) && isdigit line in
  ((forall line, line ∈ lines -> kept (strip line) = true ->
      returns (py_int (strip line))) ->
   returns (load lines)) /\
  (forall out, load lines = Ret out ->
     Sorted Z.lt out /\
     forall x, x ∈ out <->
       exists line, line ∈ lines /\ kept (strip line) = true /\
                    py_int (strip line) = Ret x).
Proof.
  cbv zeta. unfold load_prime_n_values. split.
  - intros Hints.
    destruct (load_loop_returns strip nonempty startswith_hash isdigit py_int
                lines [] Hints) as [n_values ->].
    rewrite bind_Ret. by eexists.
  - intros out (n_values & Hloop & Hout)%bind_returns.
    apply Ret_inj in Hout as <-.
    destruct (py_sorted_set_spec n_values) as [Hsorted Hmem].
    split; [done|]. intros x. rewrite Hmem.
    apply load_loop_spec in Hloop as (parsed & -> & Hparsed).
    by rewrite app_nil_l.
Qed.

Lemma load_prime_n_values_sorted_witness :
  exists out,
    ascii_load [" 333"; "# 12"; "7777 "; ""; "333"; "x1"; "12a"; "4"] = Ret out /\
    Sorted Z.lt out /\
    (4 ∈ out /\ 12 ∉ out).
Proof.
  destruct (load_prime_n_values_sorted ascii_strip ascii_nonempty
              (String.prefix "#") ascii_isdigit ascii_int
              [" 333"; "# 12"; "7777 "; ""; "333"; "x1"; "12a"; "4"])
    as [Hret Hspec].
  destruct Hret as [out Hout].
  { intros line Hline Hkept. unfold ascii_int.
    apply andb_prop in Hkept as [_ [Hne Hdig%bool_decide_eq_true]%andb_prop].
    destruct Hdig as [n ->]. rewrite Hne. by eexists. }
  exists out. split; [exact Hout|].
  destruct (Hspec out Hout) as [Hsorted Hmem].
  split; [exact Hsorted|]. split.
  - apply Hmem. exists "4". split; [|split; reflexivity].
    repeat (first [apply list_elem_of_here | apply list_elem_of_further]).
  - intros (line & Hline & Hkept & Hint)%Hmem.
    repeat (apply elem_of_cons in Hline as [->|Hline]);
      try (vm_compute in Hkept; discriminate);
      try (vm_compute in Hint; discriminate).
    by apply elem_of_nil in Hline.
Defined.

(** X13. The pipeline of [main]: on the sequence [load_prime_n_values]
    returns, [find_all_clusters] reports exactly the maximal runs of length
    at least 2, and all gaps of [compute_gaps] are at least 1. *)
Theorem loaded_sequence_clusters {str : Type}
    (strip : str -> str) (nonempty startswith_hash isdigit : str -> bool)
    (py_int : str -> outcome Z) (lines : list str) (n_values : list Z) :
  load_prime_n_values strip nonempty startswith_hash isdigit py_int lines
    = Ret n_values ->
  exists clusters gaps,
    find_all_clusters n_values = Ret clusters /\
    (forall s len,
       (s, len) ∈ clusters <-> 2 <= len /\ maximal_run n_values s len) /\
    compute_gaps n_values = Ret gaps /\
    Forall (fun g => 1 <= g) gaps.
Proof.
  unfold load_prime_n_values.
  intros (raw & _ & Hout)%bind_returns. apply Ret_inj in Hout as <-.
  destruct (py_sorted_set_spec raw) as [Hsorted _].
  eexists _, _. split; [apply find_all_clusters_spec|]. split.
  - intros s len. rewrite list_elem_of_filter. cbn.
    by rewrite runs_maximal.
  - split; [apply compute_gaps_gaps_of | by apply gaps_of_sorted].
Qed.

Lemma loaded_sequence_clusters_witness :
  exists clusters gaps,
    find_all_clusters [3; 4; 7; 333] = Ret clusters /\
    (forall s len,
       (s, len) ∈ clusters <-> 2 <= len /\ maximal_run [3; 4; 7; 333] s len) /\
    compute_gaps [3; 4; 7; 333] = Ret gaps /\
    Forall (fun g => 1 <= g) gaps.
Proof.
  assert (Hload : load_prime_n_values ascii_strip ascii_nonempty
                    (String.prefix "#") ascii_isdigit ascii_int
                    [" 333"; "# 12"; "7 "; ""; "333"; "x1"; "4"; "3"]
                  = Ret [3; 4; 7; 333]) by (vm_compute; reflexivity).
  exact (loaded_sequence_clusters _ _ _ _ _ _ _ Hload).
Defined.

(** ** Density by range *)

Section DensityFacts.

Context {float : Type}.
Context (truediv : Z -> Z -> outcome float).
Context (times_1e6 round1 : float -> float).
Context (format_range : Z -> Z -> string).





End DensityFacts.



(** ** Counting runs of at least k *)

Section CountKtuples.

Lemma count_ktuples_loop_spec (l : list Z) k fuel : forall i count,
  (i <= length l)%nat -> (length l - i < fuel)%nat ->
  count_ktuples_loop fuel l k i count
  = Ret (count
         + Z.of_nat (length (filter (fun r => k <= r.2) (runs (drop i l))))).
Proof.
  induction fuel as [|fuel IH]; intros i count Hi Hfuel; [lia|].
  cbn [count_ktuples_loop].
  destruct (Nat.ltb_spec i (length l)) as [Hlt|Hge].
  - destruct (lookup_lt_is_Some_2 l i Hlt) as [x Hx].
    rewrite (extend_run_spec l _ i x 1 Hx) by (unfold scan_fuel; lia).
    rewrite bind_Ret. cbv beta iota zeta.
    rewrite (runs_drop _ _ _ Hx), filter_cons. cbn [snd].
    pose proof (run_tail_le x (drop (S i) l)) as Hle.
    rewrite length_drop in Hle.
    rewrite IH by lia.
    replace (i + run_tail x (drop (S i) l) + 1)%nat
      with (S i + run_tail x (drop (S i) l))%nat by lia.
    destruct (Z.geb_spec (1 + Z.of_nat (run_tail x (drop (S i) l))) k);
      case_decide; try lia; f_equal; cbn [length]; lia.
  - rewrite drop_ge by lia. cbn. f_equal. lia.
Qed.

Lemma count_ktuples_up_to_N_spec (n_vals : list Z) k N_max :
  count_ktuples_up_to_N n_vals k N_max
  = Ret (Z.of_nat (length (filter (fun r => k <= r.2)
           (runs (py_sorted (filter (fun n => n <= N_max) n_vals)))))).
Proof.
  unfold count_ktuples_up_to_N. cbv zeta. unfold scan_fuel.
  rewrite count_ktuples_loop_spec by lia. done.
Qed.

Lemma filter_at_least_clusters (rs : list (Z * Z)) k :
  2 <= k ->
  filter (fun r => k <= r.2) rs
  = filter (fun r => k <= r.2) (filter (fun r => 2 <= r.2) rs).
Proof.
  intros Hk. rewrite list_filter_filter. apply list_filter_iff.
  intros r. split; [intros ?; split; lia | by intros [? _]].
Qed.

Lemma filter_exact_at_least (rs : list (Z * Z)) (k : Z) :
  (length (filter (fun r => r.2 = k) rs)
   <= length (filter (fun r => (k <= r.2)%Z) rs))%nat.
Proof.
  induction rs as [|r rs IH]; [done|]. rewrite !filter_cons.
  repeat case_decide; cbn [length]; lia.
Qed.

End CountKtuples.

(** X15. [count_ktuples_up_to_N] counts runs of length at least [k], not
    of length exactly [k]: on a strictly increasing sequence and for
    [k >= 2] its result is the number of clusters of [find_all_clusters],
    taken on the elements up to [N_max], whose length is at least [k]; this
    is never less than the number of starts [find_ktuples] returns for
    [k]. *)
Theorem count_ktuples_up_to_N_at_least (n_vals : list Z) (k N_max : Z) :
  Sorted Z.lt n_vals -> 2 <= k ->
  exists clusters exact,
    find_all_clusters (filter (fun n => n <= N_max) n_vals) = Ret clusters /\
    find_ktuples (filter (fun n => n <= N_max) n_vals) k = Ret exact /\
    count_ktuples_up_to_N n_vals k N_max
    = Ret (Z.of_nat (length (filter (fun c => k <= c.2) clusters))) /\
    (length exact <= length (filter (fun c => (k <= c.2)%Z) clusters))%nat.
Proof.
  intros Hsorted Hk. eexists _, _.
  split; [apply find_all_clusters_spec|]. split; [apply find_ktuples_spec|].
  rewrite count_ktuples_up_to_N_spec, <- filter_at_least_clusters by done.
  rewrite py_sorted_sorted.
  - split; [done|]. rewrite length_fmap. apply filter_exact_at_least.
  - apply Sorted_lt_le, StronglySorted_Sorted.
    eapply StronglySorted_sublist; [|apply sublist_filter].
    by apply (Sorted_StronglySorted _).
Qed.

Lemma count_ktuples_up_to_N_at_least_witness :
  exists clusters exact,
    find_all_clusters (filter (fun n => n <= 12) [1; 2; 3; 4; 5; 8; 9; 11; 12; 13])
      = Ret clusters /\
    find_ktuples (filter (fun n => n <= 12) [1; 2; 3; 4; 5; 8; 9; 11; 12; 13]) 2
      = Ret exact /\
    count_ktuples_up_to_N [1; 2; 3; 4; 5; 8; 9; 11; 12; 13] 2 12
    = Ret (Z.of_nat (length (filter (fun c => 2 <= c.2) clusters))) /\
    (length exact <= length (filter (fun c => (2 <= c.2)%Z) clusters))%nat.
Proof.
  assert (Hs : Sorted Z.lt [1; 2; 3; 4; 5; 8; 9; 11; 12; 13])
    by (repeat constructor; lia).
  apply (count_ktuples_up_to_N_at_least _ 2 12 Hs). lia.
Defined.

(** ** The decomposition and the boundary checks *)

(** X16. For an odd operand [n >= 3] the decomposition loop of the test
    ends with [r >= 1] and an odd [d > 0] such that [n - 1 = 2^r * d]. *)
Theorem decompose_odd_operand (n : Z) :
  3 <= n -> n mod 2 = 1 ->
  exists r d,
    decompose (decompose_fuel n) 0 (n - 1) = Ret (r, d) /\
    1 <= r /\ 0 < d /\ d mod 2 = 1 /\ n - 1 = 2 ^ r * d.
Proof.
  intros Hn Hodd.
  destruct (decompose_returns (decompose_fuel n) 0 (n - 1))
    as (r & d & Heq & Hd & Hr & Hdodd & Hdec); [lia | |].
  { unfold decompose_fuel. pose proof (Z.log2_nonneg n).
    pose proof (Z.log2_le_mono (n - 1) n). lia. }
  rewrite Z.sub_0_r in Hdec. exists r, d. split_and!; try done.
  destruct (Z.eq_dec r 0) as [->|]; [|lia].
  rewrite Z.pow_0_r, Z.mul_1_l in Hdec. rewrite <- Hdec in Hdodd.
  pose proof (Z.div_mod n 2). pose proof (Z.div_mod (n - 1) 2). lia.
Qed.

Lemma decompose_odd_operand_witness :
  exists r d,
    decompose (decompose_fuel 104729) 0 (104729 - 1) = Ret (r, d) /\
    1 <= r /\ 0 < d /\ d mod 2 = 1 /\ 104729 - 1 = 2 ^ r * d.
Proof. apply (decompose_odd_operand 104729); [lia | reflexivity]. Defined.

